(** * deque.h: a generic singly-linked deque, verified over a shallow embedding

    The header [deque.h] implements a double-ended queue as a chain of
    heap-allocated nodes, driven entirely by statement macros.  This file
    embeds the macros as programs of a small state-and-error monad over an
    explicit heap of nodes, and proves the behaviour of insertion, removal,
    teardown and the structural invariants of the deque.

    Conventions of the embedding:
    - a pointer is an address in [Z]; [NULL] is address 0;
    - [size_t] is a 64-bit unsigned integer whose wrap-around is written
      out ([size_wrap]); object addresses live in the same 64-bit range;
    - the heap is a finite map from addresses to nodes; [free] removes the
      cell, so any later access through the stale pointer is undefined;
    - [malloc] is an oracle: the address it returns (NULL on failure) and
      the indeterminate initial contents of the block are arguments of the
      macros that allocate;
    - [assert] aborts unless the translation unit was compiled with
      [NDEBUG]. *)

From Stdlib Require Import ZArith Lia.
From stdpp Require Import base gmap list.

Local Open Scope Z_scope.

(** ** Machine-level constants *)

Definition NULL : Z := 0.
Definition SIZE_MAX : Z := 2 ^ 64 - 1.

(** Arithmetic on [size_t] is modulo [SIZE_MAX + 1]. *)
Definition size_wrap (z : Z) : Z := z mod (SIZE_MAX + 1).

(** [STRUCT_DEQUE(T)]: two node pointers and the element count.  The layout
    does not depend on the element type. *)
Record deque : Type := Deque { first : Z; last : Z; size : Z }.

(** [DEQUE_DEFAULT]: the struct initializer [{ NULL, NULL, 0 }]. *)
Definition DEQUE_DEFAULT : deque := Deque NULL NULL 0.

Section Deque.

Context {T : Type}.

(** Whether the header was compiled with [NDEBUG] (assertions disabled). *)
Variable NDEBUG : bool.

(** [STRUCT_NODE(T)] *)
Record node : Type := Node { data : T; next : Z }.

(** The program state: the heap of nodes, the one deque the macros are
    applied to, and a ghost log of the addresses handed back to [free]
    (most recent first). *)
Record state : Type := State {
  mem : gmap Z node;
  dq : deque;
  freed : list Z
}.

(** How a macro invocation ends: it returns normally, it aborts on a failed
    assertion, or its behaviour is undefined (a null or dangling pointer is
    dereferenced, a block is freed twice).  [OutOfFuel] is an artefact of
    the bounded loop of [DEQUE_FREE]; it is shown unreachable below. *)
Inductive outcome (A : Type) : Type :=
  | Ok (a : A) (s : state)
  | Abort
  | Undef
  | OutOfFuel.
Arguments Ok {A} a s.
Arguments Abort {A}.
Arguments Undef {A}.
Arguments OutOfFuel {A}.

Definition M (A : Type) : Type := state → outcome A.

Definition ret {A} (a : A) : M A := λ s, Ok a s.

Definition bind {A B} (m : M A) (k : A → M B) : M B :=
  λ s, match m s with
       | Ok a s' => k a s'
       | Abort => Abort
       | Undef => Undef
       | OutOfFuel => OutOfFuel
       end.

Notation "x <- m ; k" := (bind m (λ x, k))
  (at level 100, m at next level, right associativity,
   format "'[v' x  <-  m ; '/' k ']'").
Notation "m ;; k" := (bind m (λ _, k))
  (at level 100, right associativity, format "'[v' m ;; '/' k ']'").

Definition abort {A} : M A := λ _, Abort.

(** [returns o]: the invocation came back to the caller. *)
Definition returns {A} (o : outcome A) : Prop := ∃ a s, o = Ok a s.

(** ** Accessor macros *)

(** [DEQUE_FIRST], [DEQUE_LAST] and [DEQUE_SIZE] are lvalues: each has a
    read form and a write form. *)
Definition DEQUE_FIRST : M Z := λ s, Ok (first (dq s)) s.
Definition DEQUE_LAST : M Z := λ s, Ok (last (dq s)) s.
Definition DEQUE_SIZE : M Z := λ s, Ok (size (dq s)) s.

Definition DEQUE_FIRST_set (p : Z) : M unit :=
  λ s, Ok tt (State (mem s) (Deque p (last (dq s)) (size (dq s))) (freed s)).
Definition DEQUE_LAST_set (p : Z) : M unit :=
  λ s, Ok tt (State (mem s) (Deque (first (dq s)) p (size (dq s))) (freed s)).
Definition DEQUE_SIZE_set (n : Z) : M unit :=
  λ s, Ok tt (State (mem s) (Deque (first (dq s)) (last (dq s)) n) (freed s)).

(** [p->field]: defined only when [p] is non-null and points to a live
    node. *)
Definition deref (p : Z) : M node :=
  λ s, if p =? NULL then Undef
       else match mem s !! p with
            | Some n => Ok n s
            | None => Undef
            end.

Definition store (p : Z) (n : node) : M unit :=
  λ s, Ok tt (State (<[p := n]> (mem s)) (dq s) (freed s)).

(** [NODE_NEXT(node)] and [NODE_DATA(node)], read and written. *)
Definition NODE_NEXT (p : Z) : M Z := n <- deref p; ret (next n).
Definition NODE_DATA (p : Z) : M T := n <- deref p; ret (data n).
Definition NODE_NEXT_set (p q : Z) : M unit :=
  n <- deref p; store p (Node (data n) q).
Definition NODE_DATA_set (p : Z) (v : T) : M unit :=
  n <- deref p; store p (Node v (next n)).

(** [NODE_ALLOC(T)] is [malloc(sizeof(node))].  [r] is the address malloc
    answers with, [NULL] when it fails; [junk] is the indeterminate content
    of the new block. *)
Definition NODE_ALLOC (r : Z) (junk : node) : M Z :=
  λ s, if r =? NULL then Ok NULL s
       else Ok r (State (<[r := junk]> (mem s)) (dq s) (freed s)).

(** [NODE_FREE(node)] is [free(node)]: a no-op on [NULL], undefined on a
    block that is not live. *)
Definition NODE_FREE (p : Z) : M unit :=
  λ s, if p =? NULL then Ok tt s
       else match mem s !! p with
            | Some _ => Ok tt (State (delete p (mem s)) (dq s) (p :: freed s))
            | None => Undef
            end.

(** [assert(b)] from <assert.h>. *)
Definition assert (b : bool) : M unit :=
  if NDEBUG then ret tt else if b then ret tt else abort.

(** ** The deque macros *)

(** [DEQUE_HEAD(deque)] is [NODE_DATA(DEQUE_FIRST(deque))]. *)
Definition DEQUE_HEAD : M T := f <- DEQUE_FIRST; NODE_DATA f.

(** [DEQUE_TAIL(deque)] is [NODE_DATA(DEQUE_LAST(deque))]. *)
Definition DEQUE_TAIL : M T := l <- DEQUE_LAST; NODE_DATA l.

Definition DEQUE_INIT : M unit :=
  DEQUE_FIRST_set NULL;;
  DEQUE_LAST_set NULL;;
  DEQUE_SIZE_set 0.

(** [DEQUE_SIZE(deque)++] and [DEQUE_SIZE(deque)--] on a [size_t]. *)
Definition DEQUE_SIZE_incr : M unit :=
  n <- DEQUE_SIZE; DEQUE_SIZE_set (size_wrap (n + 1)).
Definition DEQUE_SIZE_decr : M unit :=
  n <- DEQUE_SIZE; DEQUE_SIZE_set (size_wrap (n - 1)).

(** [DEQUE_PUSH_NODE]: the condition assigns [node->next = deque->first]
    and compares the assigned value with [NULL]. *)
Definition DEQUE_PUSH_NODE (node : Z) : M unit :=
  f <- DEQUE_FIRST;
  NODE_NEXT_set node f;;
  (if f =? NULL then DEQUE_LAST_set node else ret tt);;
  DEQUE_FIRST_set node;;
  DEQUE_SIZE_incr.

Definition DEQUE_PUSH (r : Z) (junk : node) (value : T) : M unit :=
  _new_node <- NODE_ALLOC r junk;
  NODE_DATA_set _new_node value;;
  DEQUE_PUSH_NODE _new_node.

(** [DEQUE_APPEND_NODE]: the condition assigns [node->next = NULL] and
    compares [deque->first] with the assigned value. *)
Definition DEQUE_APPEND_NODE (node : Z) : M unit :=
  NODE_NEXT_set node NULL;;
  f <- DEQUE_FIRST;
  (if f =? NULL then DEQUE_FIRST_set node
   else l <- DEQUE_LAST; NODE_NEXT_set l node);;
  DEQUE_LAST_set node;;
  DEQUE_SIZE_incr.

Definition DEQUE_APPEND (r : Z) (junk : node) (value : T) : M unit :=
  _new_node <- NODE_ALLOC r junk;
  NODE_DATA_set _new_node value;;
  DEQUE_APPEND_NODE _new_node.

Definition DEQUE_POP_NODE : M unit :=
  f <- DEQUE_FIRST;
  assert (negb (f =? NULL));;
  f <- DEQUE_FIRST;
  n <- NODE_NEXT f;
  DEQUE_FIRST_set n;;
  (if n =? NULL then DEQUE_LAST_set NULL else ret tt);;
  DEQUE_SIZE_decr.

Definition DEQUE_POP : M unit :=
  _prev_first <- DEQUE_FIRST;
  DEQUE_POP_NODE;;
  NODE_FREE _prev_first.

(** [DEQUE_CLEAR] is an alias of [DEQUE_INIT]. *)
Definition DEQUE_CLEAR : M unit := DEQUE_INIT.

(** The [while] loop of [DEQUE_FREE], bounded by [fuel] iterations. *)
Fixpoint free_loop (fuel : nat) : M unit :=
  match fuel with
  | O => λ _, OutOfFuel
  | S fuel' =>
      _prev_first <- DEQUE_FIRST;
      if _prev_first =? NULL then ret tt
      else
        f <- DEQUE_FIRST;
        n <- NODE_NEXT f;
        DEQUE_FIRST_set n;;
        NODE_FREE _prev_first;;
        free_loop fuel'
  end.

(** [DEQUE_FREE].  Every iteration of the loop frees a live block or is
    undefined, so one more iteration than there are live blocks is always
    enough. *)
Definition DEQUE_FREE : M unit :=
  (λ s, free_loop (S (base.size (mem s))) s);;
  DEQUE_LAST_set NULL;;
  DEQUE_SIZE_set 0.

(** ** Client idioms *)

(** The header's way of taking the front element: read it with
    [DEQUE_HEAD], then drop its node with [DEQUE_POP]. *)
Definition take_front : M T :=
  v <- DEQUE_HEAD;
  DEQUE_POP;;
  ret v.

(** Push [x], append [y], push [z], then take three elements. *)
Definition mixed_scenario (r1 r2 r3 : Z) (j1 j2 j3 : node) (x y z : T)
  : M (list T) :=
  DEQUE_PUSH r1 j1 x;;
  DEQUE_APPEND r2 j2 y;;
  DEQUE_PUSH r3 j3 z;;
  a <- take_front;
  b <- take_front;
  c <- take_front;
  ret [a; b; c].

(** Append [a], append [b], then take two elements. *)
Definition fifo_scenario (r1 r2 : Z) (j1 j2 : node) (a b : T) : M (list T) :=
  DEQUE_APPEND r1 j1 a;;
  DEQUE_APPEND r2 j2 b;;
  x <- take_front;
  y <- take_front;
  ret [x; y].

(** ** Well-formed deques *)

(** An object address: non-null and within the 64-bit address space. *)
Definition valid_ptr (p : Z) : Prop := 0 < p ≤ SIZE_MAX.

(** What a successful [malloc] answers with: the address of a block that
    was not live. *)
Definition malloc_fresh (h : gmap Z node) (r : Z) : Prop :=
  valid_ptr r ∧ h !! r = None.

(** [lseg h p l]: following [next] from [p] in heap [h] visits exactly the
    nodes of [l] (address and value, front to back) and then reaches
    [NULL]. *)
Fixpoint lseg (h : gmap Z node) (p : Z) (l : list (Z * T)) : Prop :=
  match l with
  | [] => p = NULL
  | (a, v) :: l' => p = a ∧ ∃ nx, h !! a = Some (Node v nx) ∧ lseg h nx l'
  end.

(** [deque_repr s l]: the deque of state [s] is the chain [l].  The chain
    starts at [first], its nodes are pairwise distinct object addresses,
    [last] is the final node of the chain ([NULL] for the empty chain) and
    [size] is the number of nodes. *)
Definition deque_repr (s : state) (l : list (Z * T)) : Prop :=
  lseg (mem s) (first (dq s)) l ∧
  NoDup l.*1 ∧
  Forall valid_ptr l.*1 ∧
  last (dq s) = default NULL (list.last l.*1) ∧
  size (dq s) = Z.of_nat (length l).

Definition deque_wf (s : state) : Prop := ∃ l, deque_repr s l.

(** The heap once the blocks at [ps] have been freed, in that order. *)
Definition free_all (h : gmap Z node) (ps : list Z) : gmap Z node :=
  foldl (λ h' a, delete a h') h ps.

(** The first structural invariant: the three fields agree on emptiness. *)
Definition size_first_last_agree (d : deque) : Prop :=
  (size d = 0 ↔ first d = NULL) ∧ (first d = NULL ↔ last d = NULL).

(** ** Further uses of the macros *)

(** [DEQUE_HEAD(deque) = v] and [DEQUE_TAIL(deque) = v]: both macros expand
    to [NODE_DATA] of a node, which the header allows on the left hand
    side of an assignment. *)
Definition DEQUE_HEAD_set (v : T) : M unit :=
  f <- DEQUE_FIRST; NODE_DATA_set f v.
Definition DEQUE_TAIL_set (v : T) : M unit :=
  l <- DEQUE_LAST; NODE_DATA_set l v.

(** The iteration idiom the header documents for [DEQUE_FIRST]:
    [for (node = DEQUE_FIRST(deque); node != NULL; node = NODE_NEXT(node))],
    with a body that records the node and its [NODE_DATA].  The loop is
    bounded by [fuel] iterations. *)
Fixpoint iterate_from (fuel : nat) (node : Z) : M (list (Z * T)) :=
  match fuel with
  | O => λ _, OutOfFuel
  | S fuel' =>
      if node =? NULL then ret []
      else
        v <- NODE_DATA node;
        nx <- NODE_NEXT node;
        rest <- iterate_from fuel' nx;
        ret ((node, v) :: rest)
  end.

(** The whole loop.  It frees nothing, so a walk longer than the number of
    live blocks has entered a cycle and never ends. *)
Definition DEQUE_ITERATE : M (list (Z * T)) :=
  node <- DEQUE_FIRST;
  λ s, iterate_from (S (base.size (mem s))) node s.

(** Taking the front element [k] times in a row. *)
Fixpoint take_many (k : nat) : M (list T) :=
  match k with
  | O => ret []
  | S k' =>
      v <- take_front;
      vs <- take_many k';
      ret (v :: vs)
  end.

(** Straight-line client programs: a sequence of insertions and removals,
    each insertion carrying the answer of its [malloc]. *)
Inductive op : Type :=
  | OpPush (r : Z) (junk : node) (v : T)
  | OpAppend (r : Z) (junk : node) (v : T)
  | OpPop.

Definition run_op (o : op) : M unit :=
  match o with
  | OpPush r junk v => DEQUE_PUSH r junk v
  | OpAppend r junk v => DEQUE_APPEND r junk v
  | OpPop => DEQUE_POP
  end.

Fixpoint run_ops (os : list op) : M unit :=
  match os with
  | [] => ret tt
  | o :: os' => run_op o;; run_ops os'
  end.

(** What the caller owes before each step: a successful allocation for an
    insertion, the [if (DEQUE_SIZE(deque))] check for a removal. *)
Definition op_pre (o : op) (s : state) : Prop :=
  match o with
  | OpPush r _ _ | OpAppend r _ _ => malloc_fresh (mem s) r
  | OpPop => size (dq s) ≠ 0
  end.

Fixpoint feasible (os : list op) (s : state) : Prop :=
  match os with
  | [] => True
  | o :: os' => op_pre o s ∧ ∀ s', run_op o s = Ok tt s' → feasible os' s'
  end.

(** The sequence of elements a program leaves behind, on plain lists. *)
Definition apply_op (o : op) (l : list T) : option (list T) :=
  match o with
  | OpPush _ _ v => Some (v :: l)
  | OpAppend _ _ v => Some (l ++ [v])
  | OpPop => match l with [] => None | _ :: l' => Some l' end
  end.

Fixpoint apply_ops (os : list op) (l : list T) : option (list T) :=
  match os with
  | [] => Some l
  | o :: os' => match apply_op o l with
                | Some l' => apply_ops os' l'
                | None => None
                end
  end.

End Deque.

Arguments Ok {T A} a s.
Arguments Abort {T A}.
Arguments Undef {T A}.
Arguments OutOfFuel {T A}.

(** ** Sample states over [int] elements *)

(** A freshly initialized deque in an empty heap. *)
Definition empty_state : state (T:=Z) := State ∅ DEQUE_DEFAULT [].

(** A deque holding the single value [v] in a node at address 8. *)
Definition one_node (v : Z) : state (T:=Z) :=
  State {[ 8 := Node v NULL ]} (Deque 8 8 1) [].

(** A deque holding 10 then 20, in nodes at addresses 8 and 16. *)
Definition two_nodes : state (T:=Z) :=
  State (<[ 8 := Node 10 16 ]> {[ 16 := Node 20 NULL ]}) (Deque 8 16 2) [].

(** [two_nodes] next to a node at address 24 that the caller allocated and
    left pointing into the deque. *)
Definition two_nodes_and_spare : state (T:=Z) :=
  State (<[ 24 := Node 30 8 ]> (mem two_nodes)) (dq two_nodes) [].

(** A deque whose [size] says 2 while its chain is the single node at
    address 8. *)
Definition one_node_size_two : state (T:=Z) :=
  State {[ 8 := Node 5 NULL ]} (Deque 8 8 2) [].

(** Two nodes the caller allocated, at addresses 8 and 16, next to a
    freshly initialized deque. *)
Definition two_loose_nodes : state (T:=Z) :=
  State (<[ 8 := Node 5 NULL ]> {[ 16 := Node 6 NULL ]}) DEQUE_DEFAULT [].

(** [two_loose_nodes] after [DEQUE_PUSH_NODE] of node 8, [DEQUE_APPEND_NODE]
    of node 16 and [DEQUE_APPEND_NODE] of node 8 once more. *)
Definition node_appended_twice : state (T:=Z) :=
  State (<[ 8 := Node 5 NULL ]> {[ 16 := Node 6 8 ]}) (Deque 8 8 3) [].

(** ** Symbolic execution of the macros *)

Create HintDb deque_unfold.
#[global] Hint Unfold
  ret bind abort DEQUE_FIRST DEQUE_LAST DEQUE_SIZE DEQUE_FIRST_set
  DEQUE_LAST_set DEQUE_SIZE_set deref store NODE_NEXT NODE_DATA NODE_NEXT_set
  NODE_DATA_set NODE_ALLOC NODE_FREE assert DEQUE_HEAD DEQUE_TAIL DEQUE_INIT
  DEQUE_SIZE_incr DEQUE_SIZE_decr DEQUE_PUSH_NODE DEQUE_PUSH DEQUE_APPEND_NODE
  DEQUE_APPEND DEQUE_POP_NODE DEQUE_POP DEQUE_CLEAR : deque_unfold.

Lemma eqb_NULL_false p : p ≠ NULL → (p =? NULL) = false.
Proof. intros H. by apply Z.eqb_neq. Qed.

Lemma eqb_NULL_true : (NULL =? NULL) = true.
Proof. reflexivity. Qed.

(** Unfold a macro down to the primitive steps and run them. *)
Ltac run_macro :=
  autounfold with deque_unfold; cbn [mem dq freed first last size data next];
  repeat first
    [ rewrite eqb_NULL_true
    | rewrite eqb_NULL_false by assumption
    | rewrite lookup_insert_eq
    | rewrite lookup_insert_ne by congruence
    | match goal with
      | H : ?h !! ?p = _ |- context [?h !! ?p] => rewrite H
      end
    | progress cbn [mem dq freed first last size data next negb] ].

Section Exec.

Context {T : Type}.
Variable NDEBUG : bool.
Implicit Types (s : state (T:=T)) (n : node (T:=T)) (v : T) (p r : Z).

Lemma bind_Ok {A B} (m : M A) (k : A → M B) s (a : A) s' :
  m s = Ok a s' → bind m k s = k a s'.
Proof. intros H. unfold bind. by rewrite H. Qed.

Lemma DEQUE_INIT_exec s :
  DEQUE_INIT s = Ok tt (State (mem s) DEQUE_DEFAULT (freed s)).
Proof. reflexivity. Qed.

Lemma DEQUE_PUSH_NODE_exec s p n :
  p ≠ NULL → mem s !! p = Some n →
  DEQUE_PUSH_NODE p s =
    Ok tt (State (<[p := Node (data n) (first (dq s))]> (mem s))
                 (Deque p (if first (dq s) =? NULL then p else last (dq s))
                          (size_wrap (size (dq s) + 1)))
                 (freed s)).
Proof.
  intros Hp Hn. run_macro.
  destruct (first (dq s) =? NULL); reflexivity.
Qed.

Lemma DEQUE_PUSH_exec s r junk v :
  r ≠ NULL →
  DEQUE_PUSH r junk v s =
    Ok tt (State (<[r := Node v (first (dq s))]> (mem s))
                 (Deque r (if first (dq s) =? NULL then r else last (dq s))
                          (size_wrap (size (dq s) + 1)))
                 (freed s)).
Proof.
  intros Hr. run_macro. rewrite !insert_insert_eq.
  destruct (first (dq s) =? NULL); reflexivity.
Qed.

Lemma DEQUE_APPEND_NODE_exec_empty s p n :
  p ≠ NULL → mem s !! p = Some n → first (dq s) = NULL →
  DEQUE_APPEND_NODE p s =
    Ok tt (State (<[p := Node (data n) NULL]> (mem s))
                 (Deque p p (size_wrap (size (dq s) + 1)))
                 (freed s)).
Proof.
  intros Hp Hn Hf. run_macro. rewrite Hf. run_macro. reflexivity.
Qed.

Lemma DEQUE_APPEND_NODE_exec_nonempty s p n nl :
  p ≠ NULL → mem s !! p = Some n → first (dq s) ≠ NULL →
  last (dq s) ≠ NULL → last (dq s) ≠ p → mem s !! last (dq s) = Some nl →
  DEQUE_APPEND_NODE p s =
    Ok tt (State (<[last (dq s) := Node (data nl) p]>
                    (<[p := Node (data n) NULL]> (mem s)))
                 (Deque (first (dq s)) p (size_wrap (size (dq s) + 1)))
                 (freed s)).
Proof.
  intros Hp Hn Hf Hl Hlp Hnl. run_macro. reflexivity.
Qed.

Lemma DEQUE_APPEND_exec_empty s r junk v :
  r ≠ NULL → first (dq s) = NULL →
  DEQUE_APPEND r junk v s =
    Ok tt (State (<[r := Node v NULL]> (mem s))
                 (Deque r r (size_wrap (size (dq s) + 1)))
                 (freed s)).
Proof.
  intros Hr Hf. run_macro. rewrite Hf. run_macro.
  rewrite !insert_insert_eq. reflexivity.
Qed.

Lemma DEQUE_APPEND_exec_nonempty s r junk v nl :
  r ≠ NULL → first (dq s) ≠ NULL →
  last (dq s) ≠ NULL → last (dq s) ≠ r → mem s !! last (dq s) = Some nl →
  DEQUE_APPEND r junk v s =
    Ok tt (State (<[last (dq s) := Node (data nl) r]>
                    (<[r := Node v NULL]> (mem s)))
                 (Deque (first (dq s)) r (size_wrap (size (dq s) + 1)))
                 (freed s)).
Proof.
  intros Hr Hf Hl Hlr Hnl. run_macro.
  rewrite !insert_insert_eq. reflexivity.
Qed.

Lemma DEQUE_HEAD_exec s n :
  first (dq s) ≠ NULL → mem s !! first (dq s) = Some n →
  DEQUE_HEAD s = Ok (data n) s.
Proof. intros Hf Hn. run_macro. reflexivity. Qed.

Lemma DEQUE_TAIL_exec s n :
  last (dq s) ≠ NULL → mem s !! last (dq s) = Some n →
  DEQUE_TAIL s = Ok (data n) s.
Proof. intros Hl Hn. run_macro. reflexivity. Qed.

Lemma DEQUE_POP_NODE_exec s n :
  first (dq s) ≠ NULL → mem s !! first (dq s) = Some n →
  DEQUE_POP_NODE NDEBUG s =
    Ok tt (State (mem s)
                 (Deque (next n) (if next n =? NULL then NULL else last (dq s))
                        (size_wrap (size (dq s) - 1)))
                 (freed s)).
Proof.
  intros Hf Hn. run_macro.
  destruct NDEBUG; run_macro; destruct (next n =? NULL); reflexivity.
Qed.

Lemma DEQUE_POP_exec s n :
  first (dq s) ≠ NULL → mem s !! first (dq s) = Some n →
  DEQUE_POP NDEBUG s =
    Ok tt (State (delete (first (dq s)) (mem s))
                 (Deque (next n) (if next n =? NULL then NULL else last (dq s))
                        (size_wrap (size (dq s) - 1)))
                 (first (dq s) :: freed s)).
Proof.
  intros Hf Hn. unfold DEQUE_POP, bind at 1 2. unfold DEQUE_FIRST at 1.
  rewrite (DEQUE_POP_NODE_exec s n) by assumption.
  run_macro. reflexivity.
Qed.

Lemma take_front_exec s n :
  first (dq s) ≠ NULL → mem s !! first (dq s) = Some n →
  take_front NDEBUG s =
    Ok (data n)
       (State (delete (first (dq s)) (mem s))
              (Deque (next n) (if next n =? NULL then NULL else last (dq s))
                     (size_wrap (size (dq s) - 1)))
              (first (dq s) :: freed s)).
Proof.
  intros Hf Hn. unfold take_front.
  rewrite (bind_Ok _ _ _ _ _ (DEQUE_HEAD_exec s n Hf Hn)).
  by rewrite (bind_Ok _ _ _ _ _ (DEQUE_POP_exec s n Hf Hn)).
Qed.

End Exec.

(** ** Chains of nodes in the heap *)

Section Chain.

Context {T : Type}.
Implicit Types (h : gmap Z (node (T:=T))) (l : list (Z * T)) (v : T).

Lemma lseg_live h p l a :
  lseg h p l → a ∈ l.*1 → is_Some (h !! a).
Proof.
  revert p. induction l as [|[b w] l IH]; intros p Hseg Hin.
  - by apply elem_of_nil in Hin.
  - destruct Hseg as [-> (nx & Hb & Hrest)].
    apply elem_of_cons in Hin as [->|Hin]; [eauto | by eapply IH].
Qed.

Lemma lseg_fresh_not_in h p l r :
  lseg h p l → h !! r = None → r ∉ l.*1.
Proof.
  intros Hseg Hr Hin. destruct (lseg_live h p l r Hseg Hin) as [n Hn].
  congruence.
Qed.

(** Writing a cell outside the chain leaves the chain as it is. *)
Lemma lseg_insert_frame h p l a n :
  a ∉ l.*1 → lseg h p l → lseg (<[a := n]> h) p l.
Proof.
  revert p. induction l as [|[b w] l IH]; intros p Hnot Hseg; [done|].
  destruct Hseg as [-> (nx & Hb & Hrest)].
  apply not_elem_of_cons in Hnot as [Hne Hnot].
  split; [done|]. exists nx. split; [|by apply IH].
  by rewrite lookup_insert_ne.
Qed.

(** Freeing a cell outside the chain leaves the chain as it is. *)
Lemma lseg_delete_frame h p l a :
  a ∉ l.*1 → lseg h p l → lseg (delete a h) p l.
Proof.
  revert p. induction l as [|[b w] l IH]; intros p Hnot Hseg; [done|].
  destruct Hseg as [-> (nx & Hb & Hrest)].
  apply not_elem_of_cons in Hnot as [Hne Hnot].
  split; [done|]. exists nx. split; [|by apply IH].
  by rewrite lookup_delete_ne.
Qed.

(** The final node of a chain has no successor. *)
Lemma lseg_last_cell h p l q w :
  lseg h p (l ++ [(q, w)]) → h !! q = Some (Node w NULL).
Proof.
  revert p. induction l as [|[b u] l IH]; intros p Hseg.
  - destruct Hseg as [-> (nx & Hq & Hnil)]. cbn in Hnil. by subst nx.
  - destruct Hseg as [-> (nx & Hb & Hrest)]. by eapply IH.
Qed.

(** Linking a new node [r] behind the final node [q] extends the chain by
    one. *)
Lemma lseg_link_back h p l q w r v :
  NoDup (l ++ [(q, w)]).*1 → r ∉ (l ++ [(q, w)]).*1 →
  lseg h p (l ++ [(q, w)]) →
  lseg (<[q := Node w r]> (<[r := Node v NULL]> h)) p
       ((l ++ [(q, w)]) ++ [(r, v)]).
Proof.
  revert p. induction l as [|[b u] l IH]; intros p Hnd Hnot Hseg.
  - destruct Hseg as [-> (nx & Hq & Hnil)].
    cbn in Hnot. apply not_elem_of_cons in Hnot as [Hne _].
    split; [done|]. exists r. split; [by rewrite lookup_insert_eq|].
    split; [done|]. exists NULL. split; [|done].
    rewrite lookup_insert_ne by done. by rewrite lookup_insert_eq.
  - destruct Hseg as [-> (nx & Hb & Hrest)].
    cbn in Hnd, Hnot. apply NoDup_cons in Hnd as [Hbnot Hnd].
    apply not_elem_of_cons in Hnot as [Hne Hnot].
    split; [done|]. exists nx. split; [|by apply IH].
    rewrite fmap_app in Hbnot. cbn in Hbnot.
    rewrite !lookup_insert_ne; [done|congruence|].
    intros ->. apply Hbnot. apply elem_of_app. right. by left.
Qed.

Lemma SIZE_MAX_pos : 0 < SIZE_MAX.
Proof. reflexivity. Qed.

(** Pairwise distinct object addresses: there are at most [SIZE_MAX] of
    them, so a count of live nodes always fits a [size_t]. *)
Lemma distinct_addresses_bounded (ps : list Z) :
  NoDup ps → Forall valid_ptr ps → Z.of_nat (length ps) ≤ SIZE_MAX.
Proof.
  intros Hnd Hv.
  assert (ps ⊆+ seqZ 1 SIZE_MAX) as Hsub.
  { apply NoDup_submseteq; [done|]. intros x Hx. apply elem_of_seqZ.
    rewrite Forall_forall in Hv. specialize (Hv x Hx).
    unfold valid_ptr in Hv. lia. }
  apply submseteq_length in Hsub. rewrite length_seqZ in Hsub.
  pose proof SIZE_MAX_pos. lia.
Qed.

Lemma valid_ptr_not_NULL p : valid_ptr p → p ≠ NULL.
Proof. unfold valid_ptr, NULL. lia. Qed.

Lemma size_wrap_small z : 0 ≤ z ≤ SIZE_MAX → size_wrap z = z.
Proof. intros Hz. unfold size_wrap. apply Z.mod_small. lia. Qed.

End Chain.

(** ** Consequences of the representation predicate *)

Section Repr.

Context {T : Type}.
Implicit Types (s : state (T:=T)) (l : list (Z * T)) (v : T).

Lemma lseg_NULL_iff (h : gmap Z (node (T:=T))) p l :
  Forall valid_ptr l.*1 → lseg h p l → (p = NULL ↔ l = []).
Proof.
  intros Hv Hseg. destruct l as [|[a w] l]; [done|].
  destruct Hseg as [-> _]. apply Forall_cons in Hv as [Ha _].
  apply valid_ptr_not_NULL in Ha. split; [done | discriminate].
Qed.

Lemma last_valid_not_NULL (ps : list Z) :
  ps ≠ [] → Forall valid_ptr ps → default NULL (list.last ps) ≠ NULL.
Proof.
  intros Hne Hv. apply last_is_Some in Hne as [x Hx]. rewrite Hx. cbn.
  apply valid_ptr_not_NULL. rewrite Forall_forall in Hv.
  by apply Hv, last_Some_elem_of.
Qed.

Lemma repr_nil s : deque_repr s [] ↔ dq s = DEQUE_DEFAULT.
Proof.
  unfold deque_repr. destruct (dq s) as [f la sz]. cbn. split.
  - by intros (-> & _ & _ & -> & ->).
  - intros [= -> -> ->]. repeat split; constructor.
Qed.

Lemma repr_length_bounded s l :
  deque_repr s l → 0 ≤ Z.of_nat (length l) ≤ SIZE_MAX.
Proof.
  intros (_ & Hnd & Hv & _). split; [lia|].
  rewrite <- (length_fmap fst). by apply distinct_addresses_bounded.
Qed.

Lemma repr_first_NULL s l : deque_repr s l → (first (dq s) = NULL ↔ l = []).
Proof. intros (Hseg & _ & Hv & _). by eapply lseg_NULL_iff. Qed.

Lemma repr_last_NULL s l : deque_repr s l → (last (dq s) = NULL ↔ l = []).
Proof.
  intros (_ & _ & Hv & Hla & _). rewrite Hla. split.
  - intros Hnull. destruct l as [|x l]; [done|].
    by apply last_valid_not_NULL in Hnull.
  - by intros ->.
Qed.

Lemma repr_size_zero s l : deque_repr s l → (size (dq s) = 0 ↔ l = []).
Proof.
  intros (_ & _ & _ & _ & Hsz). rewrite Hsz.
  destruct l; cbn [length]; split; (done || lia).
Qed.

(** A well-formed deque satisfies the first structural invariant. *)
Lemma wf_size_first_last_agree s :
  deque_wf s → size_first_last_agree (dq s).
Proof.
  intros [l Hl]. unfold size_first_last_agree.
  rewrite (repr_size_zero s l Hl), (repr_first_NULL s l Hl),
    (repr_last_NULL s l Hl). done.
Qed.

Lemma repr_head_cell s a v l :
  deque_repr s ((a, v) :: l) →
  first (dq s) = a ∧ a ≠ NULL ∧ (a ∉ l.*1) ∧
  ∃ nx, mem s !! a = Some (Node v nx) ∧ lseg (mem s) nx l ∧
        (nx = NULL ↔ l = []).
Proof.
  intros ([-> (nx & Ha & Hrest)] & Hnd & Hv & _).
  cbn in Hnd, Hv. apply NoDup_cons in Hnd as [Hnot _].
  apply Forall_cons in Hv as [Hva Hv].
  repeat split; [by apply valid_ptr_not_NULL | done |].
  exists nx. repeat split; [done..|by eapply lseg_NULL_iff|].
  intros ->. by destruct Hrest.
Qed.

(** The state that results from a successful insertion at the front. *)
Lemma repr_push_front s l r v fr :
  deque_repr s l → valid_ptr r → r ∉ l.*1 →
  deque_repr
    (State (<[r := Node v (first (dq s))]> (mem s))
           (Deque r (if first (dq s) =? NULL then r else last (dq s))
                  (size_wrap (size (dq s) + 1)))
           fr)
    ((r, v) :: l).
Proof.
  intros Hl Hr Hnot.
  pose proof Hl as (Hseg & Hnd & Hv & Hla & Hsz).
  unfold deque_repr; cbn [mem dq first last size fmap list_fmap fst length].
  assert (NoDup (r :: l.*1)) as Hnd' by (by apply NoDup_cons).
  assert (Forall valid_ptr (r :: l.*1)) as Hv' by (by apply Forall_cons).
  split_and!; [| done | done | |].
  - split; [done|]. exists (first (dq s)). split.
    + by rewrite lookup_insert_eq.
    + by apply lseg_insert_frame.
  - destruct l as [|[b w] l].
    + assert (first (dq s) = NULL) as -> by (by apply (repr_first_NULL s [])).
      done.
    + rewrite eqb_NULL_false.
      * rewrite Hla. cbn [fmap list_fmap fst]. by rewrite last_cons_cons.
      * intros Hf. by apply (repr_first_NULL s _ Hl) in Hf.
  - pose proof (distinct_addresses_bounded _ Hnd' Hv') as Hb.
    cbn [length] in Hb. rewrite length_fmap in Hb.
    rewrite Hsz, size_wrap_small; lia.
Qed.

(** The state that results from a successful insertion at the back. *)
Lemma repr_append_back s l r v fr :
  deque_repr s l → valid_ptr r → r ∉ l.*1 →
  ∃ h d,
    (first (dq s) = NULL →
       h = <[r := Node v NULL]> (mem s) ∧
       d = Deque r r (size_wrap (size (dq s) + 1))) ∧
    (first (dq s) ≠ NULL →
       ∃ nl, last (dq s) ≠ NULL ∧ last (dq s) ≠ r ∧
             mem s !! last (dq s) = Some nl ∧
             h = <[last (dq s) := Node (data nl) r]>
                   (<[r := Node v NULL]> (mem s)) ∧
             d = Deque (first (dq s)) r (size_wrap (size (dq s) + 1))) ∧
    deque_repr (State h d fr) (l ++ [(r, v)]).
Proof.
  intros Hl Hr Hnot.
  pose proof Hl as (Hseg & Hnd & Hv & Hla & Hsz).
  assert (NoDup (l ++ [(r, v)]).*1) as Hnd'.
  { rewrite fmap_app. apply NoDup_app. split_and!; [done| |apply NoDup_singleton].
    intros x Hx Hx'. apply list_elem_of_singleton in Hx'. by subst x. }
  assert (Forall valid_ptr (l ++ [(r, v)]).*1) as Hv'.
  { rewrite fmap_app. apply Forall_app. split; [done|]. by apply Forall_singleton. }
  assert (size_wrap (size (dq s) + 1) = Z.of_nat (length (l ++ [(r, v)])))
    as Hsz'.
  { pose proof (distinct_addresses_bounded _ Hnd' Hv') as Hb.
    rewrite length_fmap in Hb. rewrite length_app in *. cbn [length] in *.
    rewrite Hsz, size_wrap_small; lia. }
  destruct l as [|[q w] l _] using rev_ind.
  - assert (first (dq s) = NULL) as Hf by (by apply (repr_first_NULL s [])).
    eexists _, _. split; [done|]. split; [done|].
    unfold deque_repr; cbn [mem dq first last size app].
    split_and!; [| done | done | done | done].
    split; [done|]. exists NULL. split; [by rewrite lookup_insert_eq | done].
  - assert (first (dq s) ≠ NULL) as Hf.
    { intros Hf. apply (repr_first_NULL s _ Hl) in Hf. by destruct l. }
    assert (last (dq s) = q) as Hq.
    { rewrite Hla, fmap_app. cbn [fmap list_fmap fst]. by rewrite last_snoc. }
    pose proof (lseg_last_cell _ _ _ _ _ Hseg) as Hcell.
    eexists _, _. split; [done|]. split.
    + intros _. exists (Node w NULL). rewrite Hq. split_and!; [| |done..].
      * apply valid_ptr_not_NULL. rewrite Forall_forall in Hv. apply Hv.
        rewrite fmap_app. apply elem_of_app. right. by left.
      * intros ->. apply Hnot. rewrite fmap_app. apply elem_of_app. right.
        by left.
    + unfold deque_repr; cbn [mem dq first last size data].
      split_and!; [| done | done | | done].
      * by apply lseg_link_back.
      * rewrite fmap_app. cbn [fmap list_fmap fst]. by rewrite last_snoc.
Qed.

(** The state that results from removing the front node. *)
Lemma repr_pop_front s a v l nx :
  deque_repr s ((a, v) :: l) → mem s !! a = Some (Node v nx) →
  deque_repr
    (State (delete a (mem s))
           (Deque nx (if nx =? NULL then NULL else last (dq s))
                  (size_wrap (size (dq s) - 1)))
           (a :: freed s))
    l.
Proof.
  intros Hl Hcell.
  pose proof (repr_length_bounded _ _ Hl) as Hb.
  pose proof (repr_head_cell _ _ _ _ Hl) as (Hf & Ha & Hnot & nx' & Hcell' & Hseg & Hnx).
  assert (nx' = nx) as -> by congruence.
  destruct Hl as (_ & Hnd & Hv & Hla & Hsz).
  cbn [fmap list_fmap fst] in Hnd, Hv, Hla.
  apply NoDup_cons in Hnd as [_ Hnd]. apply Forall_cons in Hv as [_ Hv].
  unfold deque_repr; cbn [mem dq first last size].
  split_and!; [by apply lseg_delete_frame | done | done | |].
  - destruct l as [|[b w] l].
    + destruct Hnx as [_ ->]; done.
    + rewrite eqb_NULL_false by (intros Hn; by apply Hnx in Hn).
      rewrite Hla. cbn [fmap list_fmap fst]. by rewrite last_cons_cons.
  - cbn [length] in Hsz, Hb. rewrite Hsz, size_wrap_small; lia.
Qed.

Lemma malloc_fresh_outside s l r :
  deque_repr s l → malloc_fresh (mem s) r → valid_ptr r ∧ r ∉ l.*1.
Proof.
  intros (Hseg & _) [Hr Hfresh]. split; [done|].
  by eapply lseg_fresh_not_in.
Qed.

End Repr.

(** ** The teardown loop *)

Section Free.

Context {T : Type}.
Implicit Types (s : state (T:=T)) (l : list (Z * T)) (h : gmap Z (node (T:=T))).

Lemma free_all_lookup ps : ∀ h k,
  free_all h ps !! k = if decide (k ∈ ps) then None else h !! k.
Proof.
  induction ps as [|a ps IH]; intros h k; cbn [free_all foldl].
  - by rewrite decide_False by apply not_elem_of_nil.
  - fold (free_all (delete a h) ps). rewrite IH.
    destruct (decide (k = a)) as [->|Hne].
    + rewrite lookup_delete_eq. rewrite (decide_True (P := a ∈ a :: ps)) by left.
      by destruct (decide (a ∈ ps)).
    + rewrite lookup_delete_ne by done.
      destruct (decide (k ∈ ps)) as [Hin|Hnin].
      * by rewrite decide_True by by right.
      * rewrite decide_False; [done|].
        by intros [?|?]%elem_of_cons.
Qed.

Lemma free_loop_done s fuel :
  first (dq s) = NULL → free_loop (S fuel) s = Ok tt s.
Proof. intros Hf. cbn [free_loop]. run_macro. by rewrite Hf. Qed.

Lemma free_loop_dangling s fuel :
  first (dq s) ≠ NULL → mem s !! first (dq s) = None →
  free_loop (S fuel) s = Undef.
Proof. intros Hf Hn. cbn [free_loop]. run_macro. reflexivity. Qed.

Lemma free_loop_step s n fuel :
  first (dq s) ≠ NULL → mem s !! first (dq s) = Some n →
  free_loop (S fuel) s =
    free_loop fuel
      (State (delete (first (dq s)) (mem s))
             (Deque (next n) (last (dq s)) (size (dq s)))
             (first (dq s) :: freed s)).
Proof. intros Hf Hn. cbn [free_loop]. run_macro. reflexivity. Qed.

Lemma size_live_cell h a n :
  h !! a = Some n → base.size h = S (base.size (delete a h)).
Proof.
  intros Ha. rewrite map_size_delete_Some by eauto.
  assert (base.size h ≠ 0%nat) by (by eapply map_size_ne_0_lookup_2).
  lia.
Qed.

(** One more iteration than there are live blocks never exhausts the
    loop: the model of [DEQUE_FREE] always gives the outcome of the real
    loop. *)
Lemma free_loop_fuel (k : nat) : ∀ s,
  base.size (mem s) = k → free_loop (S k) s ≠ OutOfFuel.
Proof.
  induction k as [|k IH]; intros s Hk;
    (destruct (decide (first (dq s) = NULL)) as [Hf|Hf];
     [by rewrite free_loop_done|]);
    (destruct (mem s !! first (dq s)) as [n|] eqn:Hn;
     [|by rewrite free_loop_dangling]).
  - apply map_size_empty_inv in Hk. rewrite Hk in Hn.
    by rewrite lookup_empty in Hn.
  - rewrite (free_loop_step s n) by done. apply IH. cbn [mem].
    rewrite (size_live_cell _ _ _ Hn) in Hk. lia.
Qed.

Lemma DEQUE_FREE_total s : DEQUE_FREE s ≠ OutOfFuel.
Proof.
  unfold DEQUE_FREE, bind at 1.
  pose proof (free_loop_fuel _ s eq_refl) as Hfuel.
  destruct (free_loop _ s); done.
Qed.

(** Running the loop on a chain frees its nodes front to back. *)
Lemma free_loop_chain l : ∀ s,
  lseg (mem s) (first (dq s)) l → NoDup l.*1 → Forall valid_ptr l.*1 →
  free_loop (S (base.size (mem s))) s =
    Ok tt (State (free_all (mem s) l.*1)
                 (Deque NULL (last (dq s)) (size (dq s)))
                 (reverse l.*1 ++ freed s)).
Proof.
  induction l as [|[a v] l IH]; intros s Hseg Hnd Hv.
  - cbn in Hseg. rewrite free_loop_done by done.
    destruct s as [h [f la sz] fr]. cbn in *. by subst f.
  - destruct Hseg as [Hf (nx & Ha & Hrest)].
    cbn [fmap list_fmap fst] in Hnd, Hv.
    apply NoDup_cons in Hnd as [Hnot Hnd].
    apply Forall_cons in Hv as [Hva Hv].
    rewrite <- Hf in Ha.
    rewrite (free_loop_step s (Node v nx)); [|rewrite Hf; by apply valid_ptr_not_NULL|done].
    rewrite (size_live_cell _ _ _ Ha). rewrite Hf. cbn [next].
    specialize (IH (State (delete a (mem s))
                          (Deque nx (last (dq s)) (size (dq s)))
                          (a :: freed s))).
    cbn [mem dq freed first last size] in IH.
    rewrite IH; [|by apply lseg_delete_frame|done|done].
    cbn [fmap list_fmap fst free_all foldl].
    by rewrite reverse_cons, <- app_assoc.
Qed.

Lemma DEQUE_FREE_repr s l :
  deque_repr s l →
  DEQUE_FREE s =
    Ok tt (State (free_all (mem s) l.*1) DEQUE_DEFAULT
                 (reverse l.*1 ++ freed s)).
Proof.
  intros (Hseg & Hnd & Hv & _).
  unfold DEQUE_FREE, bind at 1. by rewrite (free_loop_chain l).
Qed.

Lemma DEQUE_FREE_empty s :
  first (dq s) = NULL →
  DEQUE_FREE s = Ok tt (State (mem s) DEQUE_DEFAULT (freed s)).
Proof.
  intros Hf. unfold DEQUE_FREE, bind at 1. rewrite free_loop_done by done.
  run_macro. by rewrite Hf.
Qed.

End Free.

(** ** The operations on well-formed deques *)

Section Ops.

Context {T : Type}.
Variable NDEBUG : bool.
Implicit Types (s : state (T:=T)) (l : list (Z * T)) (v : T)
  (n junk : node (T:=T)).

Lemma repr_size_succ s s' l l' :
  deque_repr s l → deque_repr s' l' → length l' = S (length l) →
  size (dq s') = size (dq s) + 1.
Proof.
  intros (_ & _ & _ & _ & Hsz) (_ & _ & _ & _ & Hsz') Hlen.
  rewrite Hsz, Hsz', Hlen. lia.
Qed.

Lemma length_snoc {A} (l : list A) (x : A) : length (l ++ [x]) = S (length l).
Proof. rewrite length_app. cbn. lia. Qed.

Lemma DEQUE_PUSH_NODE_repr s l p n :
  deque_repr s l → valid_ptr p → p ∉ l.*1 → mem s !! p = Some n →
  ∃ s', DEQUE_PUSH_NODE p s = Ok tt s' ∧
        deque_repr s' ((p, data n) :: l) ∧
        mem s' = <[p := Node (data n) (first (dq s))]> (mem s) ∧
        first (dq s') = p ∧
        (l ≠ [] → last (dq s') = last (dq s)) ∧
        size (dq s') = size (dq s) + 1 ∧
        freed s' = freed s.
Proof.
  intros Hl Hp Hnot Hn.
  pose proof (repr_push_front s l p (data n) (freed s) Hl Hp Hnot) as Hl'.
  pose proof (repr_size_succ s _ l _ Hl Hl' eq_refl) as Hsz.
  rewrite (DEQUE_PUSH_NODE_exec s p n) by (by try apply valid_ptr_not_NULL).
  eexists. split; [reflexivity|]. cbn [mem dq freed first last size].
  split_and!; [done | done | done | | done | done].
  intros Hne. rewrite eqb_NULL_false; [done|].
  intros Hf. by apply (repr_first_NULL _ _ Hl) in Hf.
Qed.

Lemma DEQUE_PUSH_repr s l r junk v :
  deque_repr s l → malloc_fresh (mem s) r →
  ∃ s', DEQUE_PUSH r junk v s = Ok tt s' ∧
        deque_repr s' ((r, v) :: l) ∧
        mem s' = <[r := Node v (first (dq s))]> (mem s) ∧
        first (dq s') = r ∧
        (l ≠ [] → last (dq s') = last (dq s)) ∧
        size (dq s') = size (dq s) + 1 ∧
        freed s' = freed s.
Proof.
  intros Hl Hfresh.
  destruct (malloc_fresh_outside _ _ _ Hl Hfresh) as [Hr Hnot].
  pose proof (repr_push_front s l r v (freed s) Hl Hr Hnot) as Hl'.
  pose proof (repr_size_succ s _ l _ Hl Hl' eq_refl) as Hsz.
  rewrite (DEQUE_PUSH_exec s r junk v) by (by apply valid_ptr_not_NULL).
  eexists. split; [reflexivity|]. cbn [mem dq freed first last size].
  split_and!; [done | done | done | | done | done].
  intros Hne. rewrite eqb_NULL_false; [done|].
  intros Hf. by apply (repr_first_NULL _ _ Hl) in Hf.
Qed.

Lemma DEQUE_APPEND_NODE_repr s l p n :
  deque_repr s l → valid_ptr p → p ∉ l.*1 → mem s !! p = Some n →
  ∃ s', DEQUE_APPEND_NODE p s = Ok tt s' ∧
        deque_repr s' (l ++ [(p, data n)]) ∧
        mem s' !! p = Some (Node (data n) NULL) ∧
        last (dq s') = p ∧
        (l ≠ [] → first (dq s') = first (dq s)) ∧
        size (dq s') = size (dq s) + 1 ∧
        freed s' = freed s ∧
        (∀ k, k ≠ p → k ≠ last (dq s) → mem s' !! k = mem s !! k).
Proof.
  intros Hl Hp Hnot Hn.
  pose proof (valid_ptr_not_NULL _ Hp) as Hp'.
  destruct (repr_append_back s l p (data n) (freed s) Hl Hp Hnot)
    as (h & d & Hempty & Hnonempty & Hl').
  pose proof (repr_size_succ s _ l _ Hl Hl' (length_snoc _ _)) as Hsz.
  destruct (decide (first (dq s) = NULL)) as [Hf|Hf].
  - destruct (Hempty Hf) as [-> ->].
    rewrite (DEQUE_APPEND_NODE_exec_empty s p n) by done.
    eexists. split; [reflexivity|]. cbn [mem dq freed first last size] in *.
    split_and!; [done | by rewrite lookup_insert_eq | done | | done | done |].
    + intros Hne. by apply (repr_first_NULL _ _ Hl) in Hf.
    + intros k Hkp _. by rewrite lookup_insert_ne.
  - destruct (Hnonempty Hf) as (nl & Hla & Hlp & Hnl & -> & ->).
    rewrite (DEQUE_APPEND_NODE_exec_nonempty s p n nl) by done.
    eexists. split; [reflexivity|]. cbn [mem dq freed first last size] in *.
    split_and!; [done | | done | done | done | done |].
    + rewrite lookup_insert_ne by done. by rewrite lookup_insert_eq.
    + intros k Hkp Hkl. by rewrite !lookup_insert_ne.
Qed.

Lemma DEQUE_APPEND_repr s l r junk v :
  deque_repr s l → malloc_fresh (mem s) r →
  ∃ s', DEQUE_APPEND r junk v s = Ok tt s' ∧
        deque_repr s' (l ++ [(r, v)]) ∧
        mem s' !! r = Some (Node v NULL) ∧
        last (dq s') = r ∧
        (l ≠ [] → first (dq s') = first (dq s)) ∧
        size (dq s') = size (dq s) + 1 ∧
        freed s' = freed s.
Proof.
  intros Hl Hfresh.
  destruct (malloc_fresh_outside _ _ _ Hl Hfresh) as [Hr Hnot].
  pose proof (valid_ptr_not_NULL _ Hr) as Hr'.
  destruct (repr_append_back s l r v (freed s) Hl Hr Hnot)
    as (h & d & Hempty & Hnonempty & Hl').
  pose proof (repr_size_succ s _ l _ Hl Hl' (length_snoc _ _)) as Hsz.
  destruct (decide (first (dq s) = NULL)) as [Hf|Hf].
  - destruct (Hempty Hf) as [-> ->].
    rewrite (DEQUE_APPEND_exec_empty s r junk v) by done.
    eexists. split; [reflexivity|]. cbn [mem dq freed first last size] in *.
    split_and!; [done | by rewrite lookup_insert_eq | done | | done | done].
    intros Hne. by apply (repr_first_NULL _ _ Hl) in Hf.
  - destruct (Hnonempty Hf) as (nl & Hla & Hlp & Hnl & -> & ->).
    rewrite (DEQUE_APPEND_exec_nonempty s r junk v nl) by done.
    eexists. split; [reflexivity|]. cbn [mem dq freed first last size] in *.
    split_and!; [done | | done | done | done | done].
    rewrite lookup_insert_ne by done. by rewrite lookup_insert_eq.
Qed.

Lemma DEQUE_POP_repr s a v l :
  deque_repr s ((a, v) :: l) →
  ∃ s', DEQUE_POP NDEBUG s = Ok tt s' ∧
        deque_repr s' l ∧
        mem s' = delete a (mem s) ∧
        freed s' = a :: freed s ∧
        size (dq s') = size (dq s) - 1.
Proof.
  intros Hl.
  pose proof (repr_length_bounded _ _ Hl) as Hb.
  destruct (repr_head_cell _ _ _ _ Hl) as (Hf & Ha & _ & nx & Hcell & _).
  rewrite <- Hf in Ha, Hcell.
  rewrite (DEQUE_POP_exec NDEBUG s (Node v nx)) by done.
  rewrite Hf in *. cbn [next]. eexists. split; [reflexivity|].
  cbn [mem dq freed size]. split_and!; [| done | done |].
  - by apply (repr_pop_front s a v l nx).
  - destruct Hl as (_ & _ & _ & _ & Hsz). cbn [length] in Hsz, Hb.
    rewrite size_wrap_small; lia.
Qed.

Lemma DEQUE_HEAD_repr s a v l :
  deque_repr s ((a, v) :: l) → DEQUE_HEAD s = Ok v s.
Proof.
  intros Hl.
  destruct (repr_head_cell _ _ _ _ Hl) as (Hf & Ha & _ & nx & Hcell & _).
  rewrite <- Hf in Ha, Hcell. by rewrite (DEQUE_HEAD_exec s (Node v nx)).
Qed.

(** Tearing a well-formed deque down frees exactly its chain. *)
Lemma DEQUE_FREE_wf s l :
  deque_repr s l →
  ∃ s', DEQUE_FREE s = Ok tt s' ∧
        dq s' = DEQUE_DEFAULT ∧
        deque_repr s' [] ∧
        freed s' = reverse l.*1 ++ freed s ∧
        (∀ a, a ∈ l.*1 → mem s' !! a = None) ∧
        (∀ a, a ∉ l.*1 → mem s' !! a = mem s !! a).
Proof.
  intros Hl. rewrite (DEQUE_FREE_repr s l Hl). eexists.
  split; [reflexivity|]. cbn [mem dq freed].
  split_and!; [done | by apply repr_nil | done | |];
    intros a Ha; rewrite free_all_lookup.
  - by rewrite decide_True.
  - by rewrite decide_False.
Qed.

End Ops.

(** ** Tactics for concrete states *)

Ltac solve_valid_ptr :=
  unfold valid_ptr, SIZE_MAX; split; [reflexivity | discriminate].

Ltac solve_not_elem :=
  let H := fresh in
  intros H;
  repeat (apply elem_of_cons in H as [H|H]; [discriminate H|]);
  by apply elem_of_nil in H.

Ltac solve_repr :=
  unfold deque_repr; cbn [mem dq first last size fmap list_fmap fst length];
  split_and!;
  [ repeat (split; [reflexivity|]; eexists; split; [reflexivity|]);
    reflexivity
  | repeat (apply NoDup_cons_2; [solve_not_elem|]); apply NoDup_nil_2
  | repeat (apply Forall_cons; split; [solve_valid_ptr|]); apply Forall_nil_2
  | reflexivity
  | reflexivity ].

(** * Removal from the front *)

(** C1 (as the code has it).  On every non-empty deque [DEQUE_POP] detaches
    the current first node, hands its block back to [free] and decrements
    [size] by one, leaving the deque holding the rest of the chain.  It is a
    statement macro and yields no value: the element of the detached node is
    what [DEQUE_HEAD] reads before the call. *)
Theorem DEQUE_POP_detaches_and_frees {T : Type} (NDEBUG : bool)
    (s : state (T:=T)) (a : Z) (v : T) (l : list (Z * T)) :
  deque_repr s ((a, v) :: l) →
  DEQUE_HEAD s = Ok v s ∧
  ∃ s', DEQUE_POP NDEBUG s = Ok tt s' ∧
        deque_repr s' l ∧
        mem s' = delete a (mem s) ∧
        mem s' !! a = None ∧
        freed s' = a :: freed s ∧
        size (dq s') = size (dq s) - 1.
Proof.
  intros Hl. split; [by eapply DEQUE_HEAD_repr|].
  destruct (DEQUE_POP_repr NDEBUG s a v l Hl)
    as (s' & Hpop & Hl' & Hmem & Hfr & Hsz).
  exists s'. split_and!; [done..| |done|done].
  rewrite Hmem. apply lookup_delete_eq.
Qed.

Lemma DEQUE_POP_detaches_and_frees_witness :
  deque_repr two_nodes [(8, 10); (16, 20)] ∧
  DEQUE_HEAD two_nodes = Ok 10 two_nodes ∧
  ∃ s', DEQUE_POP false two_nodes = Ok tt s' ∧
        deque_repr s' [(16, 20)] ∧
        mem s' = delete 8 (mem two_nodes) ∧
        mem s' !! 8 = None ∧
        freed s' = 8 :: freed two_nodes ∧
        size (dq s') = size (dq two_nodes) - 1.
Proof.
  assert (deque_repr two_nodes [(8, 10); (16, 20)]) as H by solve_repr.
  split; [exact H|].
  exact (DEQUE_POP_detaches_and_frees false two_nodes 8 10 [(16, 20)] H).
Defined.

(** C1 (as the specification words it) fails: [DEQUE_POP] does not return the
    detached value.  Popping a deque that holds only 1 and popping one that
    holds only 2 give the caller the very same result and leave the very
    same state behind, so nothing the call delivers tells the two values
    apart. *)
Lemma DEQUE_POP_returns_no_value :
  DEQUE_HEAD (one_node 1) = Ok 1 (one_node 1) ∧
  DEQUE_HEAD (one_node 2) = Ok 2 (one_node 2) ∧
  DEQUE_POP false (one_node 1) = Ok tt (State ∅ DEQUE_DEFAULT [8]) ∧
  DEQUE_POP false (one_node 2) = Ok tt (State ∅ DEQUE_DEFAULT [8]) ∧
  ¬ ∃ read : outcome (T:=Z) unit → Z,
      read (DEQUE_POP false (one_node 1)) = 1 ∧
      read (DEQUE_POP false (one_node 2)) = 2.
Proof.
  assert (DEQUE_POP false (one_node 1) = Ok tt (State ∅ DEQUE_DEFAULT [8]))
    as H1 by (by vm_compute).
  assert (DEQUE_POP false (one_node 2) = Ok tt (State ∅ DEQUE_DEFAULT [8]))
    as H2 by (by vm_compute).
  split_and!; [by vm_compute | by vm_compute | done | done |].
  intros (read & Hr1 & Hr2). rewrite H1 in Hr1. rewrite H2 in Hr2.
  congruence.
Qed.

(** * Allocation failure *)

(** C2 (as the code has it).  When [malloc] fails, [NODE_ALLOC] yields
    [NULL] and both [DEQUE_PUSH] and [DEQUE_APPEND] go on to store the value
    through that null pointer: the behaviour is undefined.  The macros are
    void statements with no failure path, so nothing is reported to the
    caller. *)
Theorem alloc_failure_undefined {T : Type} (s : state (T:=T))
    (junk : node (T:=T)) (v : T) :
  DEQUE_PUSH NULL junk v s = Undef ∧ DEQUE_APPEND NULL junk v s = Undef.
Proof. split; reflexivity. Qed.

(** C2 (as the specification words it) fails: on a failed allocation neither
    insertion comes back to its caller, with an error or otherwise. *)
Lemma alloc_failure_not_recoverable :
  ¬ returns (DEQUE_PUSH NULL (Node 0 NULL) 7 empty_state) ∧
  ¬ returns (DEQUE_APPEND NULL (Node 0 NULL) 7 empty_state).
Proof.
  split; intros (a & s' & H); vm_compute in H; discriminate H.
Qed.

(** * Access to an empty deque *)

(** C3 (as the code has it).  On an empty deque [DEQUE_POP], through
    [DEQUE_POP_NODE], fails its [assert] and aborts when assertions are
    compiled in; with [NDEBUG] the check is gone and the null pointer is
    dereferenced.  [DEQUE_HEAD] and [DEQUE_TAIL] never check: they
    dereference the null [first] or [last] pointer, which is undefined
    behaviour.  None of the three returns a sentinel. *)
Theorem empty_deque_misuse {T : Type} (s : state (T:=T)) :
  deque_wf s → size (dq s) = 0 →
  DEQUE_POP_NODE false s = Abort ∧
  DEQUE_POP false s = Abort ∧
  DEQUE_POP true s = Undef ∧
  DEQUE_HEAD s = Undef ∧
  DEQUE_TAIL s = Undef.
Proof.
  intros [l Hl] Hsz.
  apply (repr_size_zero _ _ Hl) in Hsz. subst l.
  apply repr_nil in Hl. destruct s as [h d fr]. cbn in Hl. subst d.
  split_and!; reflexivity.
Qed.

Lemma empty_deque_misuse_witness :
  deque_wf empty_state ∧ size (dq empty_state) = 0 ∧
  DEQUE_POP_NODE false empty_state = Abort ∧
  DEQUE_POP false empty_state = Abort ∧
  DEQUE_POP true empty_state = Undef ∧
  DEQUE_HEAD empty_state = Undef ∧
  DEQUE_TAIL empty_state = Undef.
Proof.
  assert (deque_wf empty_state) as Hwf by (exists []; solve_repr).
  split; [exact Hwf|]. split; [reflexivity|].
  exact (empty_deque_misuse empty_state Hwf eq_refl).
Defined.

(** C3 (as the specification words it) fails for the two accessors: on an empty
    deque [DEQUE_HEAD] and [DEQUE_TAIL] do not end in an assertion failure,
    even with assertions compiled in; they run into undefined behaviour. *)
Lemma DEQUE_HEAD_TAIL_not_asserted :
  size (dq empty_state) = 0 ∧
  DEQUE_HEAD empty_state ≠ Abort ∧
  DEQUE_TAIL empty_state ≠ Abort ∧
  DEQUE_HEAD empty_state = Undef ∧
  DEQUE_TAIL empty_state = Undef.
Proof. split_and!; [reflexivity | discriminate | discriminate | reflexivity..]. Qed.

(** * Single-node edge cases *)

(** C6.  Popping the only element of a deque leaves exactly the deque that
    [DEQUE_INIT] produces: [first] and [last] are both [NULL] and [size] is
    0, so [last] does not dangle on the freed node. *)
Theorem pop_only_element_resets {T : Type} (NDEBUG : bool)
    (s : state (T:=T)) :
  deque_wf s → size (dq s) = 1 →
  ∃ s', DEQUE_POP NDEBUG s = Ok tt s' ∧
        dq s' = DEQUE_DEFAULT ∧
        DEQUE_INIT s' = Ok tt s' ∧
        first (dq s') = NULL ∧ last (dq s') = NULL ∧ size (dq s') = 0.
Proof.
  intros [l Hl] Hsz.
  assert (∃ a v, l = [(a, v)]) as (a & v & ->).
  { destruct Hl as (_ & _ & _ & _ & Hlen). rewrite Hsz in Hlen.
    destruct l as [|[a v] [|? ?]]; cbn [length] in Hlen; [lia | eauto | lia]. }
  destruct (DEQUE_POP_repr NDEBUG s a v [] Hl) as (s' & Hpop & Hnil & _).
  exists s'. apply repr_nil in Hnil. rewrite Hpop, DEQUE_INIT_exec, Hnil.
  destruct s' as [h d fr]. cbn in Hnil. subst d. done.
Qed.

Lemma pop_only_element_resets_witness :
  deque_wf (one_node 5) ∧ size (dq (one_node 5)) = 1 ∧
  ∃ s', DEQUE_POP false (one_node 5) = Ok tt s' ∧
        dq s' = DEQUE_DEFAULT ∧
        DEQUE_INIT s' = Ok tt s' ∧
        first (dq s') = NULL ∧ last (dq s') = NULL ∧ size (dq s') = 0.
Proof.
  assert (deque_wf (one_node 5)) as Hwf by (exists [(8, 5)]; solve_repr).
  split; [exact Hwf|]. split; [reflexivity|].
  exact (pop_only_element_resets false (one_node 5) Hwf eq_refl).
Defined.

(** C7.  On an empty deque [DEQUE_PUSH] and [DEQUE_APPEND] of the same value
    behave identically, and when the allocation succeeds both leave the
    same single-node deque: [first] and [last] are the new node, [size] is
    1 and the node has no successor. *)
Theorem push_append_empty_agree {T : Type} (s : state (T:=T)) (r : Z)
    (junk : node (T:=T)) (v : T) :
  deque_wf s → size (dq s) = 0 →
  DEQUE_PUSH r junk v s = DEQUE_APPEND r junk v s ∧
  (r ≠ NULL →
   DEQUE_PUSH r junk v s =
     Ok tt (State (<[r := Node v NULL]> (mem s)) (Deque r r 1) (freed s)) ∧
   DEQUE_APPEND r junk v s =
     Ok tt (State (<[r := Node v NULL]> (mem s)) (Deque r r 1) (freed s))).
Proof.
  intros [l Hl] Hsz.
  apply (repr_size_zero _ _ Hl) in Hsz. subst l. apply repr_nil in Hl.
  destruct (decide (r = NULL)) as [->|Hr]; [by split|].
  rewrite (DEQUE_PUSH_exec s r junk v) by done.
  rewrite (DEQUE_APPEND_exec_empty s r junk v) by (by rewrite ?Hl).
  rewrite Hl. by split.
Qed.

Lemma push_append_empty_agree_witness :
  deque_wf empty_state ∧ size (dq empty_state) = 0 ∧
  DEQUE_PUSH 8 (Node 0 0) 7 empty_state =
    DEQUE_APPEND 8 (Node 0 0) 7 empty_state ∧
  (8 ≠ NULL →
   DEQUE_PUSH 8 (Node 0 0) 7 empty_state =
     Ok tt (State (<[8 := Node 7 NULL]> (mem empty_state)) (Deque 8 8 1)
                  (freed empty_state)) ∧
   DEQUE_APPEND 8 (Node 0 0) 7 empty_state =
     Ok tt (State (<[8 := Node 7 NULL]> (mem empty_state)) (Deque 8 8 1)
                  (freed empty_state))).
Proof.
  assert (deque_wf empty_state) as Hwf by (exists []; solve_repr).
  split; [exact Hwf|]. split; [reflexivity|].
  exact (push_append_empty_agree empty_state 8 (Node 0 0) 7 Hwf eq_refl).
Defined.

(** * Insertion at the front of a non-empty deque *)

(** C9.  On a non-empty deque a successful [DEQUE_PUSH] makes the old first
    node the successor of the new node, makes the new node the first node,
    and leaves [last] exactly as it was.  The macro decides on
    [first != NULL] alone; on a well-formed deque that is the same as
    [size != 0], and then [size] grows by one and the deque stays
    well-formed. *)
Theorem push_front_nonempty_keeps_last {T : Type} (s : state (T:=T)) (r : Z)
    (junk : node (T:=T)) (v : T) :
  r ≠ NULL →
  (first (dq s) ≠ NULL →
   ∃ s', DEQUE_PUSH r junk v s = Ok tt s' ∧
         mem s' !! r = Some (Node v (first (dq s))) ∧
         first (dq s') = r ∧
         last (dq s') = last (dq s)) ∧
  (deque_wf s → size (dq s) ≠ 0 → malloc_fresh (mem s) r →
   ∃ s', DEQUE_PUSH r junk v s = Ok tt s' ∧
         mem s' !! r = Some (Node v (first (dq s))) ∧
         first (dq s') = r ∧
         last (dq s') = last (dq s) ∧
         size (dq s') = size (dq s) + 1 ∧
         deque_wf s').
Proof.
  intros Hr. split.
  - intros Hf. rewrite (DEQUE_PUSH_exec s r junk v) by done.
    eexists. split; [reflexivity|]. cbn [mem dq first last].
    rewrite eqb_NULL_false by done. by rewrite lookup_insert_eq.
  - intros [l Hl] Hsz Hfresh.
    assert (l ≠ []) as Hne
      by (intros ->; by apply Hsz, (repr_size_zero s [])).
    destruct (DEQUE_PUSH_repr s l r junk v Hl Hfresh)
      as (s' & Hpush & Hl' & Hmem & Hf & Hla & Hsz' & _).
    exists s'. split_and!; [done | | done | by apply Hla | done | by eexists].
    rewrite Hmem. apply lookup_insert_eq.
Qed.

Lemma push_front_nonempty_keeps_last_witness :
  24 ≠ NULL ∧ first (dq two_nodes) ≠ NULL ∧
  deque_wf two_nodes ∧ size (dq two_nodes) ≠ 0 ∧
  malloc_fresh (mem two_nodes) 24 ∧
  ∃ s', DEQUE_PUSH 24 (Node 0 0) 5 two_nodes = Ok tt s' ∧
        mem s' !! 24 = Some (Node 5 (first (dq two_nodes))) ∧
        first (dq s') = 24 ∧
        last (dq s') = last (dq two_nodes) ∧
        size (dq s') = size (dq two_nodes) + 1 ∧
        deque_wf s'.
Proof.
  assert (24 ≠ NULL) as Hr by discriminate.
  assert (first (dq two_nodes) ≠ NULL) as Hf by discriminate.
  assert (deque_wf two_nodes) as Hwf
    by (exists [(8, 10); (16, 20)]; solve_repr).
  assert (size (dq two_nodes) ≠ 0) as Hsz by discriminate.
  assert (malloc_fresh (mem two_nodes) 24) as Hfresh
    by (split; [solve_valid_ptr | reflexivity]).
  destruct (push_front_nonempty_keeps_last two_nodes 24 (Node 0 0) 5 Hr)
    as [_ Hwfcase].
  split; [exact Hr|]. split; [exact Hf|]. split; [exact Hwf|].
  split; [exact Hsz|]. split; [exact Hfresh|].
  exact (Hwfcase Hwf Hsz Hfresh).
Defined.

(** * The emptiness invariant *)

(** C4 (as the code has it).  A well-formed deque has [size == 0] exactly
    when [first == NULL] and exactly when [last == NULL], and every public
    operation hands back a well-formed deque for which this holds again:
    [DEQUE_PUSH] and [DEQUE_APPEND] when the allocation succeeds,
    [DEQUE_POP] on a non-empty deque, [DEQUE_CLEAR] and [DEQUE_FREE]. *)
Theorem public_operations_preserve_invariant {T : Type} (NDEBUG : bool)
    (s : state (T:=T)) :
  deque_wf s →
  size_first_last_agree (dq s) ∧
  (∀ r junk v, malloc_fresh (mem s) r →
     ∃ s', DEQUE_PUSH r junk v s = Ok tt s' ∧
           deque_wf s' ∧ size_first_last_agree (dq s')) ∧
  (∀ r junk v, malloc_fresh (mem s) r →
     ∃ s', DEQUE_APPEND r junk v s = Ok tt s' ∧
           deque_wf s' ∧ size_first_last_agree (dq s')) ∧
  (0 < size (dq s) →
     ∃ s', DEQUE_POP NDEBUG s = Ok tt s' ∧
           deque_wf s' ∧ size_first_last_agree (dq s')) ∧
  (∃ s', DEQUE_CLEAR s = Ok tt s' ∧
         deque_wf s' ∧ size_first_last_agree (dq s')) ∧
  (∃ s', DEQUE_FREE s = Ok tt s' ∧
         deque_wf s' ∧ size_first_last_agree (dq s')).
Proof.
  intros Hwf. split; [by apply wf_size_first_last_agree|].
  destruct Hwf as [l Hl].
  assert (∀ (s' : state (T:=T)) l', deque_repr s' l' →
            deque_wf s' ∧ size_first_last_agree (dq s')) as Hkeep.
  { intros s' l' Hl'. assert (deque_wf s') by (by exists l').
    split; [done | by apply wf_size_first_last_agree]. }
  split_and!.
  - intros r junk v Hfresh.
    destruct (DEQUE_PUSH_repr s l r junk v Hl Hfresh) as (s' & Hop & Hl' & _).
    exists s'. split; [done | by eapply Hkeep].
  - intros r junk v Hfresh.
    destruct (DEQUE_APPEND_repr s l r junk v Hl Hfresh)
      as (s' & Hop & Hl' & _).
    exists s'. split; [done | by eapply Hkeep].
  - intros Hpos. destruct l as [|[a v] l].
    + apply (repr_size_zero s []) in Hl as [_ Hz]. rewrite Hz in Hpos; [lia|done].
    + destruct (DEQUE_POP_repr NDEBUG s a v l Hl) as (s' & Hop & Hl' & _).
      exists s'. split; [done | by eapply Hkeep].
  - eexists. split; [apply DEQUE_INIT_exec|].
    apply (Hkeep _ []). by apply repr_nil.
  - destruct (DEQUE_FREE_wf s l Hl) as (s' & Hop & _ & Hl' & _).
    exists s'. split; [done | by eapply Hkeep].
Qed.

Lemma public_operations_preserve_invariant_witness :
  deque_wf two_nodes ∧
  size_first_last_agree (dq two_nodes) ∧
  (∃ s', DEQUE_PUSH 24 (Node 0 0) 5 two_nodes = Ok tt s' ∧
         deque_wf s' ∧ size_first_last_agree (dq s')) ∧
  (∃ s', DEQUE_APPEND 24 (Node 0 0) 5 two_nodes = Ok tt s' ∧
         deque_wf s' ∧ size_first_last_agree (dq s')) ∧
  (∃ s', DEQUE_POP false two_nodes = Ok tt s' ∧
         deque_wf s' ∧ size_first_last_agree (dq s')) ∧
  (∃ s', DEQUE_CLEAR two_nodes = Ok tt s' ∧
         deque_wf s' ∧ size_first_last_agree (dq s')) ∧
  (∃ s', DEQUE_FREE two_nodes = Ok tt s' ∧
         deque_wf s' ∧ size_first_last_agree (dq s')).
Proof.
  assert (deque_wf two_nodes) as Hwf
    by (exists [(8, 10); (16, 20)]; solve_repr).
  assert (malloc_fresh (mem two_nodes) 24) as Hfresh
    by (split; [solve_valid_ptr | reflexivity]).
  destruct (public_operations_preserve_invariant false two_nodes Hwf)
    as (Hinv & Hpush & Happend & Hpop & Hclear & Hfree).
  split; [exact Hwf|]. split; [exact Hinv|].
  split; [exact (Hpush 24 (Node 0 0) 5 Hfresh)|].
  split; [exact (Happend 24 (Node 0 0) 5 Hfresh)|].
  split; [exact (Hpop eq_refl)|].
  split; [exact Hclear | exact Hfree].
Defined.

(** C4 (as the specification words it) fails: the agreement of [size],
    [first] and [last] on emptiness is not enough on its own for
    [DEQUE_POP] to keep it.  A deque whose [size] is 2 over a chain of one
    node satisfies it, and popping leaves [first] and [last] at [NULL]
    with [size] 1.  The macros themselves lead to such a state: pushing a
    node, appending a second one and appending the first one again gives
    [size] 3 over a chain of one node, and popping leaves [size] 2 with
    [first] and [last] at [NULL]. *)
Lemma emptiness_agreement_alone_not_kept :
  size_first_last_agree (dq one_node_size_two) ∧
  0 < size (dq one_node_size_two) ∧
  DEQUE_POP false one_node_size_two
  = Ok tt (State ∅ (Deque NULL NULL 1) [8]) ∧
  ¬ size_first_last_agree (Deque NULL NULL 1) ∧
  bind (DEQUE_PUSH_NODE 8)
       (λ _, bind (DEQUE_APPEND_NODE 16) (λ _, DEQUE_APPEND_NODE 8))
       two_loose_nodes
  = Ok tt node_appended_twice ∧
  size_first_last_agree (dq node_appended_twice) ∧
  0 < size (dq node_appended_twice) ∧
  DEQUE_POP false node_appended_twice
  = Ok tt (State {[ 16 := Node 6 8 ]} (Deque NULL NULL 2) [8]) ∧
  ¬ size_first_last_agree (Deque NULL NULL 2).
Proof.
  assert (∀ z : Z, z ≠ 0 → ¬ size_first_last_agree (Deque NULL NULL z))
    as Hbroken.
  { intros z Hz [[_ Hsize] _]. by apply Hz, Hsize. }
  assert (∀ z : Z, z ≠ 0 → size_first_last_agree (Deque 8 8 z)) as Hheld.
  { intros z Hz. split; split; cbn [size first last]; intros H;
      done || discriminate H. }
  split_and!.
  - by apply Hheld.
  - reflexivity.
  - by vm_compute.
  - by apply Hbroken.
  - by vm_compute.
  - by apply Hheld.
  - reflexivity.
  - by vm_compute.
  - by apply Hbroken.
Qed.

(** * Teardown *)

(** C8.  [DEQUE_FREE] on an empty deque frees nothing and leaves the whole
    state as it was: heap, deque and log of freed blocks.  On any
    well-formed deque a first [DEQUE_FREE] leaves an empty deque, and a
    second one right after it is safe, frees nothing more and leaves the
    deque empty again. *)
Theorem DEQUE_FREE_idempotent {T : Type} (s : state (T:=T)) :
  deque_wf s →
  (size (dq s) = 0 →
     DEQUE_FREE s = Ok tt s ∧
     ∃ s', DEQUE_FREE s = Ok tt s' ∧ mem s' = mem s ∧ freed s' = freed s) ∧
  ∃ s', DEQUE_FREE s = Ok tt s' ∧
        dq s' = DEQUE_DEFAULT ∧ size (dq s') = 0 ∧
        DEQUE_FREE s' = Ok tt s'.
Proof.
  intros [l Hl].
  assert (∀ s0 : state (T:=T), dq s0 = DEQUE_DEFAULT → DEQUE_FREE s0 = Ok tt s0)
    as Hnoop.
  { intros [h d fr] Hd. cbn in Hd. subst d. by rewrite DEQUE_FREE_empty. }
  split.
  - intros Hsz. apply (repr_size_zero _ _ Hl) in Hsz. subst l.
    apply repr_nil in Hl. split; [by apply Hnoop|].
    exists s. by rewrite Hnoop.
  - destruct (DEQUE_FREE_wf s l Hl) as (s' & Hop & Hd & _).
    exists s'. split_and!; [done | done | by rewrite Hd | by apply Hnoop].
Qed.

Lemma DEQUE_FREE_idempotent_witness :
  deque_wf empty_state ∧ size (dq empty_state) = 0 ∧
  (DEQUE_FREE empty_state = Ok tt empty_state ∧
   ∃ s', DEQUE_FREE empty_state = Ok tt s' ∧
         mem s' = mem empty_state ∧ freed s' = freed empty_state) ∧
  ∃ s', DEQUE_FREE empty_state = Ok tt s' ∧
        dq s' = DEQUE_DEFAULT ∧ size (dq s') = 0 ∧
        DEQUE_FREE s' = Ok tt s'.
Proof.
  assert (deque_wf empty_state) as Hwf by (exists []; solve_repr).
  destruct (DEQUE_FREE_idempotent empty_state Hwf) as [Hnoop Htwice].
  split; [exact Hwf|]. split; [reflexivity|].
  split; [exact (Hnoop eq_refl) | exact Htwice].
Defined.

(** * Insertion of caller-allocated nodes *)

(** C10 (as the code has it).  Whatever the [next] link of a
    caller-allocated node held before the call, [DEQUE_PUSH_NODE]
    overwrites it with the old [first] and makes the node the first node.
    [DEQUE_APPEND_NODE] overwrites it with [NULL] before linking, and
    provided the node is not the deque's current last node, the node is
    afterwards the deque's [last] node and has no successor.  Appending
    frees nothing and writes no cell but the node and the old tail, so
    whatever hung off the node is still in memory, merely no longer linked
    from it.  On a well-formed deque that does not hold the node yet, the
    chain afterwards is the old chain followed by the node alone (append),
    or the node followed by the old chain (push). *)
Theorem NODE_insertion_overwrites_next {T : Type} (s : state (T:=T))
    (p : Z) (n : node (T:=T)) :
  p ≠ NULL → mem s !! p = Some n →
  (∃ s', DEQUE_PUSH_NODE p s = Ok tt s' ∧
         mem s' !! p = Some (Node (data n) (first (dq s))) ∧
         first (dq s') = p) ∧
  (first (dq s) = NULL ∨
   (last (dq s) ≠ NULL ∧ last (dq s) ≠ p ∧ is_Some (mem s !! last (dq s))) →
   ∃ s', DEQUE_APPEND_NODE p s = Ok tt s' ∧
         mem s' !! p = Some (Node (data n) NULL) ∧
         last (dq s') = p ∧
         freed s' = freed s ∧
         (∀ k, k ≠ p → k ≠ last (dq s) → mem s' !! k = mem s !! k)) ∧
  (∀ l, deque_repr s l → valid_ptr p → p ∉ l.*1 →
     (∃ s', DEQUE_APPEND_NODE p s = Ok tt s' ∧
            deque_repr s' (l ++ [(p, data n)])) ∧
     (∃ s', DEQUE_PUSH_NODE p s = Ok tt s' ∧
            deque_repr s' ((p, data n) :: l))).
Proof.
  intros Hp Hn. split_and!.
  - rewrite (DEQUE_PUSH_NODE_exec s p n) by done.
    eexists. split; [reflexivity|]. cbn [mem dq first].
    by rewrite lookup_insert_eq.
  - destruct (decide (first (dq s) = NULL)) as [Hf|Hf].
    + intros _. rewrite (DEQUE_APPEND_NODE_exec_empty s p n) by done.
      eexists. split; [reflexivity|]. cbn [mem dq last freed].
      split_and!; [by rewrite lookup_insert_eq | done | done |].
      intros k Hkp _. by rewrite lookup_insert_ne.
    + intros [Hf'|(Hla & Hlp & [nl Hnl])]; [done|].
      rewrite (DEQUE_APPEND_NODE_exec_nonempty s p n nl) by done.
      eexists. split; [reflexivity|]. cbn [mem dq last freed].
      split_and!; [| done | done |].
      * rewrite lookup_insert_ne by done. by rewrite lookup_insert_eq.
      * intros k Hkp Hkl. by rewrite !lookup_insert_ne.
  - intros l Hl Hv Hnot. split.
    + destruct (DEQUE_APPEND_NODE_repr s l p n Hl Hv Hnot Hn)
        as (s' & Hop & Hl' & _).
      by exists s'.
    + destruct (DEQUE_PUSH_NODE_repr s l p n Hl Hv Hnot Hn)
        as (s' & Hop & Hl' & _).
      by exists s'.
Qed.

Lemma NODE_insertion_overwrites_next_witness :
  24 ≠ NULL ∧
  mem two_nodes_and_spare !! 24 = Some (Node 30 8) ∧
  (∃ s', DEQUE_PUSH_NODE 24 two_nodes_and_spare = Ok tt s' ∧
         mem s' !! 24 = Some (Node 30 (first (dq two_nodes_and_spare))) ∧
         first (dq s') = 24) ∧
  (∃ s', DEQUE_APPEND_NODE 24 two_nodes_and_spare = Ok tt s' ∧
         mem s' !! 24 = Some (Node 30 NULL) ∧
         last (dq s') = 24 ∧
         freed s' = freed two_nodes_and_spare ∧
         (∀ k, k ≠ 24 → k ≠ last (dq two_nodes_and_spare) →
               mem s' !! k = mem two_nodes_and_spare !! k)) ∧
  (∃ s', DEQUE_APPEND_NODE 24 two_nodes_and_spare = Ok tt s' ∧
         deque_repr s' ([(8, 10); (16, 20)] ++ [(24, 30)])) ∧
  (∃ s', DEQUE_PUSH_NODE 24 two_nodes_and_spare = Ok tt s' ∧
         deque_repr s' ((24, 30) :: [(8, 10); (16, 20)])).
Proof.
  assert (24 ≠ NULL) as Hp by discriminate.
  assert (mem two_nodes_and_spare !! 24 = Some (Node 30 8)) as Hn
    by reflexivity.
  assert (deque_repr two_nodes_and_spare [(8, 10); (16, 20)]) as Hl
    by solve_repr.
  assert (valid_ptr 24) as Hv by solve_valid_ptr.
  assert (24 ∉ [(8, 10); (16, 20)].*1) as Hnot by solve_not_elem.
  assert (last (dq two_nodes_and_spare) ≠ NULL ∧
          last (dq two_nodes_and_spare) ≠ 24 ∧
          is_Some (mem two_nodes_and_spare !! last (dq two_nodes_and_spare)))
    as Htail.
  { split; [discriminate|]. split; [discriminate|].
    exists (Node 20 NULL). reflexivity. }
  destruct (NODE_insertion_overwrites_next two_nodes_and_spare 24
              (Node 30 8) Hp Hn) as (Hpush & Happend & Hchain).
  destruct (Hchain [(8, 10); (16, 20)] Hl Hv Hnot) as [Hback Hfront].
  split; [exact Hp|]. split; [exact Hn|]. split; [exact Hpush|].
  split; [exact (Happend (or_intror Htail))|].
  split; [exact Hback | exact Hfront].
Defined.

(** C10 (as the specification words it) fails for one node: the deque's
    current last node.  [DEQUE_APPEND_NODE] first sets its link to [NULL]
    and then, linking it behind the old tail, which is the node itself,
    sets the link to the node.  After the call the node is [last] but does
    not end the chain: it is its own successor, and [DEQUE_FREE] then
    reads it after freeing it. *)
Lemma DEQUE_APPEND_NODE_of_tail_loops :
  deque_repr (one_node 5) [(8, 5)] ∧
  mem (one_node 5) !! 8 = Some (Node 5 NULL) ∧
  DEQUE_APPEND_NODE 8 (one_node 5)
  = Ok tt (State {[ 8 := Node 5 8 ]} (Deque 8 8 2) []) ∧
  mem (State (T:=Z) {[ 8 := Node 5 8 ]} (Deque 8 8 2) []) !! 8
  ≠ Some (Node 5 NULL) ∧
  NODE_NEXT 8 (State (T:=Z) {[ 8 := Node 5 8 ]} (Deque 8 8 2) [])
  = Ok 8 (State {[ 8 := Node 5 8 ]} (Deque 8 8 2) []) ∧
  DEQUE_FREE (State (T:=Z) {[ 8 := Node 5 8 ]} (Deque 8 8 2) []) = Undef.
Proof.
  split_and!.
  - solve_repr.
  - reflexivity.
  - by vm_compute.
  - vm_compute. discriminate.
  - by vm_compute.
  - by vm_compute.
Qed.

(** * Order of removal *)

(** C5.  Starting from an empty deque, pushing 1, appending 2 and pushing 0
    and then taking the front element three times yields 0, then 1, then 2;
    appending [a] then [b] and taking the front element twice yields [a]
    then [b].  Either way the deque is empty again and every node that was
    allocated has been freed.  The element a pop removes is the one
    [DEQUE_HEAD] reads just before it ([take_front]). *)
Theorem scenarios_pop_in_order :
  (∀ (NDEBUG : bool) (h : gmap Z (node (T:=Z))) (fr : list Z)
     (r1 r2 r3 : Z) (j1 j2 j3 : node (T:=Z)),
     malloc_fresh h r1 → malloc_fresh h r2 → malloc_fresh h r3 →
     r1 ≠ r2 → r1 ≠ r3 → r2 ≠ r3 →
     mixed_scenario NDEBUG r1 r2 r3 j1 j2 j3 1 2 0 (State h DEQUE_DEFAULT fr)
     = Ok [0; 1; 2] (State h DEQUE_DEFAULT (r2 :: r1 :: r3 :: fr))) ∧
  (∀ (T : Type) (NDEBUG : bool) (h : gmap Z (node (T:=T))) (fr : list Z)
     (r1 r2 : Z) (j1 j2 : node (T:=T)) (a b : T),
     malloc_fresh h r1 → malloc_fresh h r2 → r1 ≠ r2 →
     fifo_scenario NDEBUG r1 r2 j1 j2 a b (State h DEQUE_DEFAULT fr)
     = Ok [a; b] (State h DEQUE_DEFAULT (r2 :: r1 :: fr))).
Proof.
  split.
  - intros NDEBUG h fr r1 r2 r3 j1 j2 j3 [Hv1 Hf1] [Hv2 Hf2] [Hv3 Hf3]
      H12 H13 H23.
    apply valid_ptr_not_NULL in Hv1, Hv2, Hv3.
    set (m1 := <[r1 := Node 1 NULL]> h).
    set (m2 := <[r1 := Node 1 r2]> (<[r2 := Node 2 NULL]> m1)).
    set (m3 := <[r3 := Node 0 r1]> m2).
    assert (DEQUE_PUSH r1 j1 1 (State h DEQUE_DEFAULT fr)
            = Ok tt (State m1 (Deque r1 r1 1) fr)) as E1
      by (by rewrite DEQUE_PUSH_exec).
    assert (DEQUE_APPEND r2 j2 2 (State m1 (Deque r1 r1 1) fr)
            = Ok tt (State m2 (Deque r1 r2 2) fr)) as E2.
    { rewrite (DEQUE_APPEND_exec_nonempty _ r2 j2 2 (Node 1 NULL));
        cbn [mem dq first last]; [done..| by apply lookup_insert_eq]. }
    assert (DEQUE_PUSH r3 j3 0 (State m2 (Deque r1 r2 2) fr)
            = Ok tt (State m3 (Deque r3 r2 3) fr)) as E3.
    { rewrite DEQUE_PUSH_exec by done. cbn [mem dq first last size].
      by rewrite eqb_NULL_false. }
    assert (take_front NDEBUG (State m3 (Deque r3 r2 3) fr)
            = Ok 0 (State (delete r3 m3) (Deque r1 r2 2) (r3 :: fr))) as E4.
    { rewrite (take_front_exec NDEBUG _ (Node 0 r1));
        [|done|by apply lookup_insert_eq].
      cbn [mem dq first last size data next]. by rewrite eqb_NULL_false. }
    assert (delete r3 m3 = m2) as Hd1.
    { apply delete_insert_id. unfold m2, m1.
      by rewrite !lookup_insert_ne. }
    rewrite Hd1 in *.
    assert (take_front NDEBUG (State m2 (Deque r1 r2 2) (r3 :: fr))
            = Ok 1 (State (delete r1 m2) (Deque r2 r2 1) (r1 :: r3 :: fr)))
      as E5.
    { rewrite (take_front_exec NDEBUG _ (Node 1 r2));
        [|done|by apply lookup_insert_eq].
      cbn [mem dq first last size data next]. by rewrite eqb_NULL_false. }
    assert (delete r1 m2 = <[r2 := Node 2 NULL]> h) as Hd2.
    { unfold m2, m1. rewrite delete_insert_eq.
      rewrite delete_insert_ne by done. rewrite delete_insert_eq.
      by rewrite delete_id. }
    rewrite Hd2 in *.
    assert (take_front NDEBUG
              (State (<[r2 := Node 2 NULL]> h) (Deque r2 r2 1) (r1 :: r3 :: fr))
            = Ok 2 (State h DEQUE_DEFAULT (r2 :: r1 :: r3 :: fr))) as E6.
    { rewrite (take_front_exec NDEBUG _ (Node 2 NULL));
        [|done|by apply lookup_insert_eq].
      cbn [mem dq first last size data next].
      by rewrite delete_insert_id. }
    unfold mixed_scenario.
    rewrite (bind_Ok _ _ _ _ _ E1), (bind_Ok _ _ _ _ _ E2),
      (bind_Ok _ _ _ _ _ E3), (bind_Ok _ _ _ _ _ E4),
      (bind_Ok _ _ _ _ _ E5), (bind_Ok _ _ _ _ _ E6).
    reflexivity.
  - intros T NDEBUG h fr r1 r2 j1 j2 a b [Hv1 Hf1] [Hv2 Hf2] H12.
    apply valid_ptr_not_NULL in Hv1, Hv2.
    set (m1 := <[r1 := Node a NULL]> h).
    set (m2 := <[r1 := Node a r2]> (<[r2 := Node b NULL]> m1)).
    assert (DEQUE_APPEND r1 j1 a (State h DEQUE_DEFAULT fr)
            = Ok tt (State m1 (Deque r1 r1 1) fr)) as E1
      by (by rewrite DEQUE_APPEND_exec_empty).
    assert (DEQUE_APPEND r2 j2 b (State m1 (Deque r1 r1 1) fr)
            = Ok tt (State m2 (Deque r1 r2 2) fr)) as E2.
    { rewrite (DEQUE_APPEND_exec_nonempty _ r2 j2 b (Node a NULL));
        cbn [mem dq first last]; [done..| by apply lookup_insert_eq]. }
    assert (take_front NDEBUG (State m2 (Deque r1 r2 2) fr)
            = Ok a (State (delete r1 m2) (Deque r2 r2 1) (r1 :: fr))) as E3.
    { rewrite (take_front_exec NDEBUG _ (Node a r2));
        [|done|by apply lookup_insert_eq].
      cbn [mem dq first last size data next]. by rewrite eqb_NULL_false. }
    assert (delete r1 m2 = <[r2 := Node b NULL]> h) as Hd3.
    { unfold m2, m1. rewrite delete_insert_eq.
      rewrite delete_insert_ne by done. rewrite delete_insert_eq.
      by rewrite delete_id. }
    rewrite Hd3 in *.
    assert (take_front NDEBUG
              (State (<[r2 := Node b NULL]> h) (Deque r2 r2 1) (r1 :: fr))
            = Ok b (State h DEQUE_DEFAULT (r2 :: r1 :: fr))) as E4.
    { rewrite (take_front_exec NDEBUG _ (Node b NULL));
        [|done|by apply lookup_insert_eq].
      cbn [mem dq first last size data next].
      by rewrite delete_insert_id. }
    unfold fifo_scenario.
    rewrite (bind_Ok _ _ _ _ _ E1), (bind_Ok _ _ _ _ _ E2),
      (bind_Ok _ _ _ _ _ E3), (bind_Ok _ _ _ _ _ E4).
    reflexivity.
Qed.

Lemma scenarios_pop_in_order_witness :
  mixed_scenario false 8 16 24 (Node 0 0) (Node 0 0) (Node 0 0) 1 2 0
    empty_state
  = Ok [0; 1; 2] (State ∅ DEQUE_DEFAULT [16; 8; 24]) ∧
  fifo_scenario false 8 16 (Node 0 0) (Node 0 0) 7 9 empty_state
  = Ok [7; 9] (State ∅ DEQUE_DEFAULT [16; 8]).
Proof.
  assert (∀ r : Z, 0 < r ≤ 24 → malloc_fresh (∅ : gmap Z (node (T:=Z))) r)
    as Hfresh.
  { intros r Hr. split; [|apply lookup_empty].
    unfold valid_ptr. pose proof SIZE_MAX_pos.
    split; [lia|]. unfold SIZE_MAX. lia. }
  destruct scenarios_pop_in_order as [Hmixed Hfifo]. split.
  - apply (Hmixed false ∅ [] 8 16 24); try (apply Hfresh; lia); discriminate.
  - apply (Hfifo Z false ∅ [] 8 16); try (apply Hfresh; lia); discriminate.
Defined.

(** * The model runs *)

Example mixed_scenario_runs :
  mixed_scenario false 8 16 24 (Node 0 0) (Node 0 0) (Node 0 0) 1 2 0
    empty_state
  = Ok [0; 1; 2] (State ∅ DEQUE_DEFAULT [16; 8; 24]).
Proof. vm_compute. reflexivity. Qed.

Example DEQUE_FREE_two_nodes :
  DEQUE_FREE two_nodes = Ok tt (State ∅ DEQUE_DEFAULT [16; 8]).
Proof. vm_compute. reflexivity. Qed.

Example DEQUE_TAIL_two_nodes : DEQUE_TAIL two_nodes = Ok 20 two_nodes.
Proof. vm_compute. reflexivity. Qed.

(** A second [DEQUE_POP] after the only node is gone fails the assertion. *)
Example DEQUE_POP_twice_aborts :
  bind (DEQUE_POP false) (λ _, DEQUE_POP false) (one_node 5) = Abort.
Proof. vm_compute. reflexivity. Qed.

(** * Beyond the single operations *)

Section MoreChain.

Context {T : Type}.
Variable NDEBUG : bool.
Implicit Types (s : state (T:=T)) (l : list (Z * T)) (v w : T)
  (h : gmap Z (node (T:=T))).

(** Overwriting the value of one node of a chain changes that element
    only. *)
Lemma lseg_set_data h p l1 a v w nx l2 :
  NoDup (l1 ++ (a, v) :: l2).*1 →
  lseg h p (l1 ++ (a, v) :: l2) → h !! a = Some (Node v nx) →
  lseg (<[a := Node w nx]> h) p (l1 ++ (a, w) :: l2).
Proof.
  revert p. induction l1 as [|[b u] l1 IH]; intros p Hnd Hseg Ha.
  - destruct Hseg as [-> (nx' & Ha' & Hrest)].
    assert (nx' = nx) as -> by congruence.
    cbn in Hnd. apply NoDup_cons in Hnd as [Hnot _].
    split; [done|]. exists nx. split; [by rewrite lookup_insert_eq|].
    by apply lseg_insert_frame.
  - destruct Hseg as [-> (nx' & Hb & Hrest)].
    cbn in Hnd. apply NoDup_cons in Hnd as [Hnot Hnd].
    assert (a ≠ b) as Hne.
    { intros ->. apply Hnot. rewrite fmap_app. apply elem_of_app. right.
      by left. }
    split; [done|]. exists nx'. split; [by rewrite lookup_insert_ne|].
    by apply IH.
Qed.

Lemma repr_set_data s l1 a v w nx l2 :
  deque_repr s (l1 ++ (a, v) :: l2) → mem s !! a = Some (Node v nx) →
  deque_repr (State (<[a := Node w nx]> (mem s)) (dq s) (freed s))
             (l1 ++ (a, w) :: l2).
Proof.
  intros (Hseg & Hnd & Hv & Hla & Hsz) Ha.
  assert ((l1 ++ (a, w) :: l2).*1 = (l1 ++ (a, v) :: l2).*1) as Hfst
    by (by rewrite !fmap_app).
  unfold deque_repr. cbn [mem dq]. rewrite Hfst.
  split_and!; [by apply (lseg_set_data _ _ _ _ v) | done | done | done |].
  rewrite Hsz, !length_app. done.
Qed.

(** What is left of a deque once its first node is unlinked, in any heap
    that still holds the rest of the chain. *)
Lemma repr_rest s a v l nx h' fr' :
  deque_repr s ((a, v) :: l) → mem s !! a = Some (Node v nx) →
  lseg h' nx l →
  deque_repr
    (State h'
           (Deque nx (if nx =? NULL then NULL else last (dq s))
                  (size_wrap (size (dq s) - 1)))
           fr')
    l.
Proof.
  intros Hl Hcell Hseg'.
  pose proof (repr_length_bounded _ _ Hl) as Hb.
  pose proof (repr_head_cell _ _ _ _ Hl)
    as (Hf & Ha & Hnot & nx' & Hcell' & Hseg & Hnx).
  assert (nx' = nx) as -> by congruence.
  destruct Hl as (_ & Hnd & Hv & Hla & Hsz).
  cbn [fmap list_fmap fst] in Hnd, Hv, Hla.
  apply NoDup_cons in Hnd as [_ Hnd]. apply Forall_cons in Hv as [_ Hv].
  unfold deque_repr; cbn [mem dq first last size].
  split_and!; [done | done | done | |].
  - destruct l as [|[b u] l].
    + destruct Hnx as [_ ->]; done.
    + rewrite eqb_NULL_false by (intros Hn; by apply Hnx in Hn).
      rewrite Hla. cbn [fmap list_fmap fst]. by rewrite last_cons_cons.
  - cbn [length] in Hsz, Hb. rewrite Hsz, size_wrap_small; lia.
Qed.

Lemma repr_tail_cell s l q w :
  deque_repr s (l ++ [(q, w)]) →
  last (dq s) = q ∧ q ≠ NULL ∧ mem s !! q = Some (Node w NULL).
Proof.
  intros (Hseg & _ & Hv & Hla & _). split_and!.
  - rewrite Hla, fmap_app. cbn [fmap list_fmap fst]. by rewrite last_snoc.
  - apply valid_ptr_not_NULL. rewrite Forall_forall in Hv. apply Hv.
    rewrite fmap_app. apply elem_of_app. right. by left.
  - by eapply lseg_last_cell.
Qed.

Lemma DEQUE_HEAD_set_exec s n w :
  first (dq s) ≠ NULL → mem s !! first (dq s) = Some n →
  DEQUE_HEAD_set w s =
    Ok tt (State (<[first (dq s) := Node w (next n)]> (mem s)) (dq s)
                 (freed s)).
Proof. intros Hf Hn. unfold DEQUE_HEAD_set. run_macro. reflexivity. Qed.

Lemma DEQUE_TAIL_set_exec s n w :
  last (dq s) ≠ NULL → mem s !! last (dq s) = Some n →
  DEQUE_TAIL_set w s =
    Ok tt (State (<[last (dq s) := Node w (next n)]> (mem s)) (dq s)
                 (freed s)).
Proof. intros Hl Hn. unfold DEQUE_TAIL_set. run_macro. reflexivity. Qed.

(** The chain of a deque never outnumbers the live blocks. *)
Lemma lseg_length_le_size l : ∀ h p,
  lseg h p l → NoDup l.*1 → (length l ≤ base.size h)%nat.
Proof.
  induction l as [|[a v] l IH]; intros h p Hseg Hnd; cbn [length]; [lia|].
  destruct Hseg as [-> (nx & Ha & Hrest)].
  cbn in Hnd. apply NoDup_cons in Hnd as [Hnot Hnd].
  rewrite (size_live_cell _ _ _ Ha).
  apply le_n_S, (IH _ nx); [by apply lseg_delete_frame | done].
Qed.

End MoreChain.

(** ** Reading and writing the two ends *)

(** X1.  On a well-formed, non-empty deque [DEQUE_HEAD] evaluates to the
    value of the first element and [DEQUE_TAIL] to the value of the last
    one, and neither changes the state. *)
Theorem DEQUE_HEAD_TAIL_read {T : Type} (s : state (T:=T))
    (l : list (Z * T)) (a q : Z) (v w : T) :
  deque_repr s l → head l = Some (a, v) → list.last l = Some (q, w) →
  DEQUE_HEAD s = Ok v s ∧ DEQUE_TAIL s = Ok w s.
Proof.
  intros Hl Hhead Hlast. split.
  - destruct l as [|[a' v'] l']; [done|]. injection Hhead as -> ->.
    by eapply DEQUE_HEAD_repr.
  - apply last_Some in Hlast as [l' ->].
    destruct (repr_tail_cell s l' q w Hl) as (Hla & Hq & Hcell).
    rewrite <- Hla in Hq, Hcell.
    by rewrite (DEQUE_TAIL_exec s (Node w NULL)).
Qed.

Lemma DEQUE_HEAD_TAIL_read_witness :
  deque_repr two_nodes [(8, 10); (16, 20)] ∧
  DEQUE_HEAD two_nodes = Ok 10 two_nodes ∧
  DEQUE_TAIL two_nodes = Ok 20 two_nodes.
Proof.
  assert (deque_repr two_nodes [(8, 10); (16, 20)]) as H by solve_repr.
  split; [exact H|].
  exact (DEQUE_HEAD_TAIL_read two_nodes [(8, 10); (16, 20)] 8 16 10 20
           H eq_refl eq_refl).
Defined.

(** X2.  Assigning through [DEQUE_HEAD] replaces the value of the first
    element and assigning through [DEQUE_TAIL] that of the last one; the
    other elements, the links, the three fields of the deque and the set
    of live blocks stay as they were: the one cell written keeps its link,
    and every other cell of the heap, in the chain or not, is untouched. *)
Theorem DEQUE_HEAD_TAIL_write {T : Type} (s : state (T:=T))
    (l : list (Z * T)) (a : Z) (v w : T) :
  (deque_repr s ((a, v) :: l) →
   ∃ s', DEQUE_HEAD_set w s = Ok tt s' ∧
         deque_repr s' ((a, w) :: l) ∧
         dq s' = dq s ∧ freed s' = freed s ∧
         DEQUE_HEAD s' = Ok w s' ∧
         (∃ nx, mem s !! a = Some (Node v nx) ∧
                mem s' !! a = Some (Node w nx)) ∧
         (∀ k, k ≠ a → mem s' !! k = mem s !! k)) ∧
  (deque_repr s (l ++ [(a, v)]) →
   ∃ s', DEQUE_TAIL_set w s = Ok tt s' ∧
         deque_repr s' (l ++ [(a, w)]) ∧
         dq s' = dq s ∧ freed s' = freed s ∧
         DEQUE_TAIL s' = Ok w s' ∧
         (∃ nx, mem s !! a = Some (Node v nx) ∧
                mem s' !! a = Some (Node w nx)) ∧
         (∀ k, k ≠ a → mem s' !! k = mem s !! k)).
Proof.
  split; intros Hl.
  - destruct (repr_head_cell _ _ _ _ Hl) as (Hf & Ha & _ & nx & Hcell & _).
    pose proof (repr_set_data s [] a v w nx l Hl Hcell) as Hl'.
    pose proof Hcell as Hcell0.
    rewrite <- Hf in Ha, Hcell.
    rewrite (DEQUE_HEAD_set_exec s (Node v nx)) by done.
    rewrite Hf. cbn [next]. eexists. split; [reflexivity|].
    cbn [mem dq freed]. split_and!; [done | done | done | | |].
    + by eapply DEQUE_HEAD_repr.
    + exists nx. split; [done | apply lookup_insert_eq].
    + intros k Hk. by rewrite lookup_insert_ne.
  - destruct (repr_tail_cell s l a v Hl) as (Hla & Ha & Hcell).
    pose proof (repr_set_data s l a v w NULL [] Hl Hcell) as Hl'.
    pose proof Hcell as Hcell0.
    rewrite <- Hla in Ha, Hcell.
    rewrite (DEQUE_TAIL_set_exec s (Node v NULL)) by done.
    rewrite Hla. cbn [next]. eexists. split; [reflexivity|].
    cbn [mem dq freed]. split_and!; [done | done | done | | |].
    + rewrite (DEQUE_TAIL_exec _ (Node w NULL)); cbn [mem dq data];
        [done | done | rewrite Hla; apply lookup_insert_eq].
    + exists NULL. split; [done | apply lookup_insert_eq].
    + intros k Hk. by rewrite lookup_insert_ne.
Qed.

Lemma DEQUE_HEAD_TAIL_write_witness :
  deque_repr two_nodes ((8, 10) :: [(16, 20)]) ∧
  deque_repr two_nodes ([(8, 10)] ++ [(16, 20)]) ∧
  (∃ s', DEQUE_HEAD_set 11 two_nodes = Ok tt s' ∧
         deque_repr s' ((8, 11) :: [(16, 20)]) ∧
         dq s' = dq two_nodes ∧ freed s' = freed two_nodes ∧
         DEQUE_HEAD s' = Ok 11 s' ∧
         (∃ nx, mem two_nodes !! 8 = Some (Node 10 nx) ∧
                mem s' !! 8 = Some (Node 11 nx)) ∧
         (∀ k, k ≠ 8 → mem s' !! k = mem two_nodes !! k)) ∧
  (∃ s', DEQUE_TAIL_set 21 two_nodes = Ok tt s' ∧
         deque_repr s' ([(8, 10)] ++ [(16, 21)]) ∧
         dq s' = dq two_nodes ∧ freed s' = freed two_nodes ∧
         DEQUE_TAIL s' = Ok 21 s' ∧
         (∃ nx, mem two_nodes !! 16 = Some (Node 20 nx) ∧
                mem s' !! 16 = Some (Node 21 nx)) ∧
         (∀ k, k ≠ 16 → mem s' !! k = mem two_nodes !! k)).
Proof.
  assert (deque_repr two_nodes [(8, 10); (16, 20)]) as H by solve_repr.
  split; [exact H|]. split; [exact H|]. split.
  - exact (proj1 (DEQUE_HEAD_TAIL_write two_nodes [(16, 20)] 8 10 11) H).
  - exact (proj2 (DEQUE_HEAD_TAIL_write two_nodes [(8, 10)] 16 20 21) H).
Defined.

(** ** Unlinking without freeing *)

(** X3.  [DEQUE_POP_NODE] unlinks the first node of a well-formed,
    non-empty deque without freeing it: the heap and the log of freed
    blocks are untouched, the node is still live with its value and link
    intact, and the deque holds the rest of the chain. *)
Theorem DEQUE_POP_NODE_keeps_node {T : Type} (NDEBUG : bool)
    (s : state (T:=T)) (a : Z) (v : T) (l : list (Z * T)) :
  deque_repr s ((a, v) :: l) →
  ∃ s', DEQUE_POP_NODE NDEBUG s = Ok tt s' ∧
        deque_repr s' l ∧
        mem s' = mem s ∧ freed s' = freed s ∧
        mem s' !! a = Some (Node v (first (dq s'))) ∧
        NODE_DATA a s' = Ok v s'.
Proof.
  intros Hl.
  destruct (repr_head_cell _ _ _ _ Hl) as (Hf & Ha & _ & nx & Hcell & Hseg & _).
  pose proof (repr_rest s a v l nx (mem s) (freed s) Hl Hcell Hseg) as Hl'.
  rewrite (DEQUE_POP_NODE_exec NDEBUG s (Node v nx)) by (by rewrite Hf).
  cbn [next]. eexists. split; [reflexivity|]. cbn [mem dq freed first].
  split_and!; [done..|].
  unfold NODE_DATA, bind, deref, ret. cbn [mem].
  rewrite eqb_NULL_false by done. by rewrite Hcell.
Qed.

Lemma DEQUE_POP_NODE_keeps_node_witness :
  deque_repr two_nodes [(8, 10); (16, 20)] ∧
  ∃ s', DEQUE_POP_NODE false two_nodes = Ok tt s' ∧
        deque_repr s' [(16, 20)] ∧
        mem s' = mem two_nodes ∧ freed s' = freed two_nodes ∧
        mem s' !! 8 = Some (Node 10 (first (dq s'))) ∧
        NODE_DATA 8 s' = Ok 10 s'.
Proof.
  assert (deque_repr two_nodes [(8, 10); (16, 20)]) as H by solve_repr.
  split; [exact H|].
  exact (DEQUE_POP_NODE_keeps_node false two_nodes 8 10 [(16, 20)] H).
Defined.

(** X4.  Unlinking the first node with [DEQUE_POP_NODE] and pushing that
    same node back with [DEQUE_PUSH_NODE] restores the state exactly:
    heap, [first], [last] and [size]. *)
Theorem pop_node_push_node_roundtrip {T : Type} (NDEBUG : bool)
    (s : state (T:=T)) (a : Z) (v : T) (l : list (Z * T)) :
  deque_repr s ((a, v) :: l) →
  bind (DEQUE_POP_NODE NDEBUG) (λ _, DEQUE_PUSH_NODE a) s = Ok tt s.
Proof.
  intros Hl.
  pose proof (repr_length_bounded _ _ Hl) as Hb.
  destruct (repr_head_cell _ _ _ _ Hl)
    as (Hf & Ha & _ & nx & Hcell & Hseg & Hnx).
  pose proof Hl as (_ & _ & _ & Hla & Hsz).
  rewrite <- Hf in Hcell.
  rewrite (bind_Ok _ _ _ _ _ (DEQUE_POP_NODE_exec NDEBUG s (Node v nx)
                                ltac:(by rewrite Hf) Hcell)).
  rewrite Hf in Hcell.
  rewrite (DEQUE_PUSH_NODE_exec _ a (Node v nx)) by done.
  cbn [mem dq first last size data next].
  rewrite insert_id by done.
  destruct s as [h [f la sz] fr]. cbn [mem dq first last size] in *.
  subst f. do 3 f_equal.
  - destruct l as [|[b u] l].
    + destruct Hnx as [_ Hn]. rewrite Hn by done. by rewrite Hla.
    + by rewrite eqb_NULL_false by (intros Hn; by apply Hnx in Hn).
  - cbn [length] in Hsz, Hb. subst sz.
    rewrite (size_wrap_small (_ - 1)) by lia.
    rewrite size_wrap_small; lia.
Qed.

Lemma pop_node_push_node_roundtrip_witness :
  deque_repr two_nodes [(8, 10); (16, 20)] ∧
  bind (DEQUE_POP_NODE false) (λ _, DEQUE_PUSH_NODE 8) two_nodes
  = Ok tt two_nodes.
Proof.
  assert (deque_repr two_nodes [(8, 10); (16, 20)]) as H by solve_repr.
  split; [exact H|].
  exact (pop_node_push_node_roundtrip false two_nodes 8 10 [(16, 20)] H).
Defined.

(** ** Insert, then take *)

(** X5.  Pushing a value and taking the front element right away gives
    that value back and undoes the push: heap and deque are as before, and
    the one block that was allocated has been freed. *)
Theorem push_then_take_front {T : Type} (NDEBUG : bool) (s : state (T:=T))
    (r : Z) (junk : node (T:=T)) (v : T) :
  deque_wf s → malloc_fresh (mem s) r →
  bind (DEQUE_PUSH r junk v) (λ _, take_front NDEBUG) s
  = Ok v (State (mem s) (dq s) (r :: freed s)).
Proof.
  intros [l Hl] [Hr Hfresh].
  pose proof (repr_length_bounded _ _ Hl) as Hb.
  pose proof (wf_size_first_last_agree s (ex_intro _ l Hl)) as [_ Hfl].
  pose proof Hl as (_ & _ & _ & _ & Hsz).
  apply valid_ptr_not_NULL in Hr.
  rewrite (bind_Ok _ _ _ _ _ (DEQUE_PUSH_exec s r junk v Hr)).
  rewrite (take_front_exec NDEBUG _ (Node v (first (dq s))));
    [|done|by apply lookup_insert_eq].
  cbn [mem dq first last size data next freed].
  rewrite delete_insert_id by done.
  destruct s as [h [f la sz] fr]. cbn [mem dq first last size] in *.
  do 3 f_equal.
  - destruct (f =? NULL) eqn:Hf; [|done].
    apply Z.eqb_eq in Hf. symmetry. by apply Hfl.
  - subst sz.
    destruct (decide (Z.of_nat (length l) = SIZE_MAX)) as [Hmax|Hmax].
    + rewrite Hmax. reflexivity.
    + rewrite (size_wrap_small (_ + 1)) by lia.
      rewrite size_wrap_small; lia.
Qed.

Lemma push_then_take_front_witness :
  deque_wf two_nodes ∧ malloc_fresh (mem two_nodes) 24 ∧
  bind (DEQUE_PUSH 24 (Node 0 0) 5) (λ _, take_front false) two_nodes
  = Ok 5 (State (mem two_nodes) (dq two_nodes) (24 :: freed two_nodes)).
Proof.
  assert (deque_wf two_nodes) as Hwf
    by (exists [(8, 10); (16, 20)]; solve_repr).
  assert (malloc_fresh (mem two_nodes) 24) as Hfresh
    by (split; [solve_valid_ptr | reflexivity]).
  split; [exact Hwf|]. split; [exact Hfresh|].
  exact (push_then_take_front false two_nodes 24 (Node 0 0) 5 Hwf Hfresh).
Defined.

(** ** Insertion on the represented sequence *)

(** X6.  On a well-formed deque holding the sequence [l], a successful
    [DEQUE_PUSH] of [v] leaves a well-formed deque holding [v] followed by
    [l]: [size] grows by one, nothing is freed, and no cell other than the
    new node is written. *)
Theorem DEQUE_PUSH_is_cons {T : Type} (s : state (T:=T)) (l : list (Z * T))
    (r : Z) (junk : node (T:=T)) (v : T) :
  deque_repr s l → malloc_fresh (mem s) r →
  ∃ s', DEQUE_PUSH r junk v s = Ok tt s' ∧
        deque_repr s' ((r, v) :: l) ∧
        size (dq s') = size (dq s) + 1 ∧
        freed s' = freed s ∧
        (∀ k, k ≠ r → mem s' !! k = mem s !! k).
Proof.
  intros Hl Hfresh.
  destruct (DEQUE_PUSH_repr s l r junk v Hl Hfresh)
    as (s' & Hop & Hl' & Hmem & _ & _ & Hsz & Hfr).
  exists s'. split_and!; [done..|].
  intros k Hk. rewrite Hmem. by rewrite lookup_insert_ne.
Qed.

Lemma DEQUE_PUSH_is_cons_witness :
  deque_repr two_nodes [(8, 10); (16, 20)] ∧
  malloc_fresh (mem two_nodes) 24 ∧
  ∃ s', DEQUE_PUSH 24 (Node 0 0) 5 two_nodes = Ok tt s' ∧
        deque_repr s' ((24, 5) :: [(8, 10); (16, 20)]) ∧
        size (dq s') = size (dq two_nodes) + 1 ∧
        freed s' = freed two_nodes ∧
        (∀ k, k ≠ 24 → mem s' !! k = mem two_nodes !! k).
Proof.
  assert (deque_repr two_nodes [(8, 10); (16, 20)]) as H by solve_repr.
  assert (malloc_fresh (mem two_nodes) 24) as Hfresh
    by (split; [solve_valid_ptr | reflexivity]).
  split; [exact H|]. split; [exact Hfresh|].
  exact (DEQUE_PUSH_is_cons two_nodes [(8, 10); (16, 20)] 24 (Node 0 0) 5
           H Hfresh).
Defined.

(** X7.  On a well-formed deque holding the sequence [l], a successful
    [DEQUE_APPEND] of [v] leaves a well-formed deque holding [l] followed
    by [v]: [size] grows by one, nothing is freed, [first] is unchanged
    unless the deque was empty, and the only cells written are the new
    node and the old last node. *)
Theorem DEQUE_APPEND_is_snoc {T : Type} (s : state (T:=T))
    (l : list (Z * T)) (r : Z) (junk : node (T:=T)) (v : T) :
  deque_repr s l → malloc_fresh (mem s) r →
  ∃ s', DEQUE_APPEND r junk v s = Ok tt s' ∧
        deque_repr s' (l ++ [(r, v)]) ∧
        size (dq s') = size (dq s) + 1 ∧
        freed s' = freed s ∧
        (l ≠ [] → first (dq s') = first (dq s)) ∧
        (∀ k, k ≠ r → k ≠ last (dq s) → mem s' !! k = mem s !! k).
Proof.
  intros Hl Hfresh.
  destruct (malloc_fresh_outside _ _ _ Hl Hfresh) as [Hr Hnot].
  pose proof (valid_ptr_not_NULL _ Hr) as Hr'.
  destruct (repr_append_back s l r v (freed s) Hl Hr Hnot)
    as (h & d & Hempty & Hnonempty & Hl').
  pose proof (repr_size_succ s _ l _ Hl Hl' (length_snoc _ _)) as Hsz.
  destruct (decide (first (dq s) = NULL)) as [Hf|Hf].
  - destruct (Hempty Hf) as [-> ->].
    rewrite (DEQUE_APPEND_exec_empty s r junk v) by done.
    eexists. split; [reflexivity|]. cbn [mem dq freed first last size] in *.
    split_and!; [done | done | done | |].
    + intros Hne. by apply (repr_first_NULL _ _ Hl) in Hf.
    + intros k Hkr _. by rewrite lookup_insert_ne.
  - destruct (Hnonempty Hf) as (nl & Hla & Hlr & Hnl & -> & ->).
    rewrite (DEQUE_APPEND_exec_nonempty s r junk v nl) by done.
    eexists. split; [reflexivity|]. cbn [mem dq freed first last size] in *.
    split_and!; [done | done | done | done |].
    intros k Hkr Hkl. by rewrite !lookup_insert_ne.
Qed.

Lemma DEQUE_APPEND_is_snoc_witness :
  deque_repr two_nodes [(8, 10); (16, 20)] ∧
  malloc_fresh (mem two_nodes) 24 ∧
  ∃ s', DEQUE_APPEND 24 (Node 0 0) 5 two_nodes = Ok tt s' ∧
        deque_repr s' ([(8, 10); (16, 20)] ++ [(24, 5)]) ∧
        size (dq s') = size (dq two_nodes) + 1 ∧
        freed s' = freed two_nodes ∧
        ([(8, 10); (16, 20)] ≠ [] → first (dq s') = first (dq two_nodes)) ∧
        (∀ k, k ≠ 24 → k ≠ last (dq two_nodes) →
              mem s' !! k = mem two_nodes !! k).
Proof.
  assert (deque_repr two_nodes [(8, 10); (16, 20)]) as H by solve_repr.
  assert (malloc_fresh (mem two_nodes) 24) as Hfresh
    by (split; [solve_valid_ptr | reflexivity]).
  split; [exact H|]. split; [exact Hfresh|].
  exact (DEQUE_APPEND_is_snoc two_nodes [(8, 10); (16, 20)] 24 (Node 0 0) 5
           H Hfresh).
Defined.

(** ** Iteration *)

Section Iterate.

Context {T : Type}.
Implicit Types (s : state (T:=T)) (l : list (Z * T)).

Lemma NODE_DATA_exec s p (n : node (T:=T)) :
  p ≠ NULL → mem s !! p = Some n → NODE_DATA p s = Ok (data n) s.
Proof. intros Hp Hn. run_macro. reflexivity. Qed.

Lemma NODE_NEXT_exec s p (n : node (T:=T)) :
  p ≠ NULL → mem s !! p = Some n → NODE_NEXT p s = Ok (next n) s.
Proof. intros Hp Hn. run_macro. reflexivity. Qed.

Lemma iterate_from_chain l : ∀ s p fuel,
  lseg (mem s) p l → Forall valid_ptr l.*1 → (length l < fuel)%nat →
  iterate_from fuel p s = Ok l s.
Proof.
  induction l as [|[a v] l IH]; intros s p fuel Hseg Hv Hfuel;
    (destruct fuel as [|fuel]; [cbn [length] in Hfuel; lia|]).
  - cbn in Hseg. subst p. reflexivity.
  - destruct Hseg as [-> (nx & Ha & Hrest)].
    cbn [fmap list_fmap fst] in Hv. apply Forall_cons in Hv as [Hva Hv].
    apply valid_ptr_not_NULL in Hva. cbn [length] in Hfuel.
    cbn [iterate_from]. rewrite eqb_NULL_false by done.
    rewrite (bind_Ok _ _ _ _ _ (NODE_DATA_exec s a _ Hva Ha)).
    rewrite (bind_Ok _ _ _ _ _ (NODE_NEXT_exec s a _ Hva Ha)).
    cbn [data next].
    by rewrite (bind_Ok _ _ _ _ _ (IH s nx fuel Hrest Hv ltac:(lia))).
Qed.

End Iterate.

(** X8.  The iteration idiom [for (node = DEQUE_FIRST(deque); node != NULL;
    node = NODE_NEXT(node))] on a well-formed deque ends, changes nothing,
    and visits exactly the nodes of the chain front to back: [size] of
    them, the last one visited being [DEQUE_LAST]. *)
Theorem DEQUE_ITERATE_visits_chain {T : Type} (s : state (T:=T))
    (l : list (Z * T)) :
  deque_repr s l →
  DEQUE_ITERATE s = Ok l s ∧
  Z.of_nat (length l) = size (dq s) ∧
  (l ≠ [] → fst <$> list.last l = Some (last (dq s))).
Proof.
  intros Hl. pose proof Hl as (Hseg & Hnd & Hv & Hla & Hsz).
  split_and!; [|done|].
  - unfold DEQUE_ITERATE, bind, DEQUE_FIRST.
    apply iterate_from_chain; [done..|].
    pose proof (lseg_length_le_size l _ _ Hseg Hnd). lia.
  - intros Hne. rewrite Hla. rewrite <- fmap_last.
    destruct (list.last l.*1) eqn:E; [done|].
    apply last_None, fmap_nil_inv in E. done.
Qed.

Lemma DEQUE_ITERATE_visits_chain_witness :
  deque_repr two_nodes [(8, 10); (16, 20)] ∧
  DEQUE_ITERATE two_nodes = Ok [(8, 10); (16, 20)] two_nodes ∧
  Z.of_nat (length [(8, 10); (16, 20)]) = size (dq two_nodes) ∧
  ([(8, 10); (16, 20)] ≠ [] →
   fst <$> list.last [(8, 10); (16, 20)] = Some (last (dq two_nodes))).
Proof.
  assert (deque_repr two_nodes [(8, 10); (16, 20)]) as H by solve_repr.
  split; [exact H|].
  exact (DEQUE_ITERATE_visits_chain two_nodes [(8, 10); (16, 20)] H).
Defined.

(** ** Teardown and clearing *)

(** X9.  [DEQUE_FREE] on a well-formed deque frees exactly the nodes of its
    chain, each once and front to back, leaves every other block of the
    heap as it was, and leaves the deque as [DEQUE_DEFAULT]. *)
Theorem DEQUE_FREE_releases_chain {T : Type} (s : state (T:=T))
    (l : list (Z * T)) :
  deque_repr s l →
  ∃ s', DEQUE_FREE s = Ok tt s' ∧
        dq s' = DEQUE_DEFAULT ∧
        freed s' = reverse l.*1 ++ freed s ∧
        (∀ a, a ∈ l.*1 → mem s' !! a = None) ∧
        (∀ a, a ∉ l.*1 → mem s' !! a = mem s !! a).
Proof.
  intros Hl.
  destruct (DEQUE_FREE_wf s l Hl) as (s' & Hop & Hd & _ & Hfr & Hin & Hout).
  by exists s'.
Qed.

Lemma DEQUE_FREE_releases_chain_witness :
  deque_repr two_nodes_and_spare [(8, 10); (16, 20)] ∧
  ∃ s', DEQUE_FREE two_nodes_and_spare = Ok tt s' ∧
        dq s' = DEQUE_DEFAULT ∧
        freed s' = reverse [(8, 10); (16, 20)].*1
                   ++ freed two_nodes_and_spare ∧
        (∀ a, a ∈ [(8, 10); (16, 20)].*1 → mem s' !! a = None) ∧
        (∀ a, a ∉ [(8, 10); (16, 20)].*1 →
              mem s' !! a = mem two_nodes_and_spare !! a).
Proof.
  assert (deque_repr two_nodes_and_spare [(8, 10); (16, 20)]) as H
    by solve_repr.
  split; [exact H|].
  exact (DEQUE_FREE_releases_chain two_nodes_and_spare
           [(8, 10); (16, 20)] H).
Defined.

(** X10.  [DEQUE_CLEAR] empties the deque without freeing anything: every
    node of the chain is still live afterwards, and since the deque no
    longer reaches them a following [DEQUE_FREE] frees nothing either. *)
Theorem DEQUE_CLEAR_leaks_nodes {T : Type} (s : state (T:=T))
    (l : list (Z * T)) :
  deque_repr s l →
  ∃ s', DEQUE_CLEAR s = Ok tt s' ∧
        dq s' = DEQUE_DEFAULT ∧
        mem s' = mem s ∧ freed s' = freed s ∧
        (∀ a, a ∈ l.*1 → is_Some (mem s' !! a)) ∧
        DEQUE_FREE s' = Ok tt s'.
Proof.
  intros (Hseg & _). unfold DEQUE_CLEAR. rewrite DEQUE_INIT_exec.
  eexists. split; [reflexivity|]. cbn [mem dq freed].
  split_and!; [done..| |].
  - intros a Ha. by eapply lseg_live.
  - by rewrite DEQUE_FREE_empty.
Qed.

Lemma DEQUE_CLEAR_leaks_nodes_witness :
  deque_repr two_nodes [(8, 10); (16, 20)] ∧
  ∃ s', DEQUE_CLEAR two_nodes = Ok tt s' ∧
        dq s' = DEQUE_DEFAULT ∧
        mem s' = mem two_nodes ∧ freed s' = freed two_nodes ∧
        (∀ a, a ∈ [(8, 10); (16, 20)].*1 → is_Some (mem s' !! a)) ∧
        DEQUE_FREE s' = Ok tt s'.
Proof.
  assert (deque_repr two_nodes [(8, 10); (16, 20)]) as H by solve_repr.
  split; [exact H|].
  exact (DEQUE_CLEAR_leaks_nodes two_nodes [(8, 10); (16, 20)] H).
Defined.

Section FreeAnyState.

Context {T : Type}.
Implicit Types (s : state (T:=T)).

Lemma free_loop_returns fuel : ∀ s s',
  free_loop fuel s = Ok tt s' →
  first (dq s') = NULL ∧ last (dq s') = last (dq s) ∧
  mem s' ⊆ mem s ∧
  ∃ ps, freed s' = ps ++ freed s ∧
        NoDup ps ∧
        (∀ a, a ∈ ps → a ≠ NULL ∧ is_Some (mem s !! a) ∧ mem s' !! a = None) ∧
        (∀ a, a ∉ ps → mem s' !! a = mem s !! a) ∧
        (base.size (mem s') + length ps)%nat = base.size (mem s).
Proof.
  induction fuel as [|fuel IH]; intros s s' Hrun; [done|].
  destruct (decide (first (dq s) = NULL)) as [Hf|Hf].
  - rewrite free_loop_done in Hrun by done. injection Hrun as <-.
    split_and!; [done..|]. exists [].
    split_and!; [done | apply NoDup_nil_2 | | done | cbn; lia].
    intros a Ha. by apply elem_of_nil in Ha.
  - destruct (mem s !! first (dq s)) as [n|] eqn:Hn;
      [|by rewrite free_loop_dangling in Hrun].
    rewrite (free_loop_step s n) in Hrun by done.
    apply IH in Hrun
      as (Hf' & Hla' & Hsub & ps & Hfr & Hnd & Hin & Hout & Hcount).
    cbn [mem dq freed last] in *.
    set (a0 := first (dq s)) in *.
    assert (a0 ∉ ps) as Hnot.
    { intros Ha0. destruct (Hin a0 Ha0) as (_ & [x Hx] & _).
      by rewrite lookup_delete_eq in Hx. }
    split_and!; [done | done | |].
    + etrans; [exact Hsub | apply delete_subseteq].
    + exists (ps ++ [a0]). split_and!.
      * by rewrite <- app_assoc.
      * apply NoDup_app. split_and!; [done | | apply NoDup_singleton].
        intros x Hx Hx'. apply list_elem_of_singleton in Hx'. by subst x.
      * intros a Ha. apply elem_of_app in Ha as [Ha|Ha].
        -- destruct (Hin a Ha) as (Hnn & [x Hx] & Hgone).
           split_and!; [done | | done].
           apply lookup_delete_Some in Hx as [_ Hx]. eauto.
        -- apply list_elem_of_singleton in Ha. subst a.
           split_and!; [done | eauto |].
           rewrite (Hout a0 Hnot). apply lookup_delete_eq.
      * intros a Ha. apply not_elem_of_app in Ha as [Ha Ha'].
        apply not_elem_of_cons in Ha' as [Hne _].
        rewrite (Hout a Ha). by rewrite lookup_delete_ne.
      * rewrite (size_live_cell _ _ _ Hn), length_app. cbn [length]. lia.
Qed.

End FreeAnyState.

(** X11.  Whatever the state, well-formed or not: when [DEQUE_FREE] returns
    it leaves the deque as [DEQUE_DEFAULT] and has only removed blocks
    from the heap.  The blocks it handed to [free] are pairwise distinct,
    each was a live non-null block before and is gone after, and every
    other block is exactly as it was. *)
Theorem DEQUE_FREE_returns_empty {T : Type} (s s' : state (T:=T)) :
  DEQUE_FREE s = Ok tt s' →
  dq s' = DEQUE_DEFAULT ∧
  mem s' ⊆ mem s ∧
  ∃ ps, freed s' = ps ++ freed s ∧
        NoDup ps ∧
        (∀ a, a ∈ ps → a ≠ NULL ∧ is_Some (mem s !! a) ∧ mem s' !! a = None) ∧
        (∀ a, a ∉ ps → mem s' !! a = mem s !! a) ∧
        (base.size (mem s') + length ps)%nat = base.size (mem s).
Proof.
  unfold DEQUE_FREE, bind at 1. intros Hrun.
  destruct (free_loop _ s) as [[] s1| | |] eqn:Hloop; try done.
  apply free_loop_returns in Hloop
    as (Hf & _ & Hsub & ps & Hfr & Hnd & Hin & Hout & Hcount).
  cbv [bind DEQUE_LAST_set DEQUE_SIZE_set] in Hrun.
  cbn [mem dq freed first last size] in Hrun. injection Hrun as <-.
  cbn [mem dq freed]. rewrite Hf. split_and!; [done | done |].
  by exists ps.
Qed.

Lemma DEQUE_FREE_returns_empty_witness :
  DEQUE_FREE two_nodes = Ok tt (State ∅ DEQUE_DEFAULT [16; 8]) ∧
  dq (State (T:=Z) ∅ DEQUE_DEFAULT [16; 8]) = DEQUE_DEFAULT ∧
  mem (State (T:=Z) ∅ DEQUE_DEFAULT [16; 8]) ⊆ mem two_nodes ∧
  ∃ ps, freed (State (T:=Z) ∅ DEQUE_DEFAULT [16; 8])
        = ps ++ freed two_nodes ∧
        NoDup ps ∧
        (∀ a, a ∈ ps →
              a ≠ NULL ∧ is_Some (mem two_nodes !! a) ∧
              mem (State (T:=Z) ∅ DEQUE_DEFAULT [16; 8]) !! a = None) ∧
        (∀ a, a ∉ ps →
              mem (State (T:=Z) ∅ DEQUE_DEFAULT [16; 8]) !! a
              = mem two_nodes !! a) ∧
        (base.size (mem (State (T:=Z) ∅ DEQUE_DEFAULT [16%Z; 8%Z]))
         + length ps)%nat = base.size (mem two_nodes).
Proof.
  assert (DEQUE_FREE two_nodes = Ok tt (State ∅ DEQUE_DEFAULT [16; 8]))
    as H by (vm_compute; reflexivity).
  split; [exact H|].
  exact (DEQUE_FREE_returns_empty two_nodes _ H).
Defined.

(** ** Misuse *)

(** X12.  After [DEQUE_POP] the pointer to the old first node dangles:
    reading its value or its link through it, or freeing it once more, is
    undefined. *)
Theorem DEQUE_POP_leaves_dangling {T : Type} (NDEBUG : bool)
    (s : state (T:=T)) (a : Z) (v : T) (l : list (Z * T)) :
  deque_repr s ((a, v) :: l) →
  ∃ s', DEQUE_POP NDEBUG s = Ok tt s' ∧
        NODE_DATA a s' = Undef ∧
        NODE_NEXT a s' = Undef ∧
        NODE_FREE a s' = Undef.
Proof.
  intros Hl.
  destruct (repr_head_cell _ _ _ _ Hl) as (_ & Ha & _).
  destruct (DEQUE_POP_repr NDEBUG s a v l Hl) as (s' & Hop & _ & Hmem & _).
  exists s'. split; [done|].
  assert (mem s' !! a = None) as Hgone
    by (rewrite Hmem; apply lookup_delete_eq).
  unfold NODE_DATA, NODE_NEXT, NODE_FREE, bind, deref.
  rewrite eqb_NULL_false by done. by rewrite Hgone.
Qed.

Lemma DEQUE_POP_leaves_dangling_witness :
  deque_repr two_nodes [(8, 10); (16, 20)] ∧
  ∃ s', DEQUE_POP false two_nodes = Ok tt s' ∧
        NODE_DATA 8 s' = Undef ∧
        NODE_NEXT 8 s' = Undef ∧
        NODE_FREE 8 s' = Undef.
Proof.
  assert (deque_repr two_nodes [(8, 10); (16, 20)]) as H by solve_repr.
  split; [exact H|].
  exact (DEQUE_POP_leaves_dangling false two_nodes 8 10 [(16, 20)] H).
Defined.

(** X13.  Handing [DEQUE_PUSH_NODE] the node that is already first links
    the node to itself; tearing the deque down with [DEQUE_FREE] then
    reads the node after freeing it, which is undefined. *)
Theorem DEQUE_PUSH_NODE_twice_breaks_free {T : Type} (s : state (T:=T))
    (p : Z) (n : node (T:=T)) :
  p ≠ NULL → mem s !! p = Some n → first (dq s) = p →
  ∃ s', DEQUE_PUSH_NODE p s = Ok tt s' ∧
        mem s' !! p = Some (Node (data n) p) ∧
        first (dq s') = p ∧
        DEQUE_FREE s' = Undef.
Proof.
  intros Hp Hn Hf.
  rewrite (DEQUE_PUSH_NODE_exec s p n) by done. rewrite Hf.
  set (s' := State _ _ _). exists s'.
  assert (mem s' !! p = Some (Node (data n) p)) as Hcell
    by apply lookup_insert_eq.
  split_and!; [done..|].
  unfold DEQUE_FREE, bind at 1.
  rewrite (size_live_cell _ _ _ Hcell).
  rewrite (free_loop_step s' (Node (data n) p)) by done.
  rewrite free_loop_dangling; [done | done |].
  cbn [mem dq first next]. apply lookup_delete_eq.
Qed.

Lemma DEQUE_PUSH_NODE_twice_breaks_free_witness :
  8 ≠ NULL ∧ mem (one_node 5) !! 8 = Some (Node 5 NULL) ∧
  first (dq (one_node 5)) = 8 ∧
  ∃ s', DEQUE_PUSH_NODE 8 (one_node 5) = Ok tt s' ∧
        mem s' !! 8 = Some (Node 5 8) ∧
        first (dq s') = 8 ∧
        DEQUE_FREE s' = Undef.
Proof.
  assert (8 ≠ NULL) as Hp by discriminate.
  assert (mem (one_node 5) !! 8 = Some (Node 5 NULL)) as Hn by reflexivity.
  split; [exact Hp|]. split; [exact Hn|]. split; [reflexivity|].
  exact (DEQUE_PUSH_NODE_twice_breaks_free (one_node 5) 8 (Node 5 NULL)
           Hp Hn eq_refl).
Defined.

(** ** Whole programs *)

Section Programs.

Context {T : Type}.
Variable NDEBUG : bool.
Implicit Types (s : state (T:=T)) (l : list (Z * T)) (os : list (op (T:=T))).

Lemma take_front_repr s a v l :
  deque_repr s ((a, v) :: l) →
  ∃ s', take_front NDEBUG s = Ok v s' ∧
        deque_repr s' l ∧
        mem s' = delete a (mem s) ∧
        freed s' = a :: freed s.
Proof.
  intros Hl. unfold take_front.
  rewrite (bind_Ok _ _ _ _ _ (DEQUE_HEAD_repr s a v l Hl)).
  destruct (DEQUE_POP_repr NDEBUG s a v l Hl)
    as (s' & Hop & Hl' & Hmem & Hfr & _).
  rewrite (bind_Ok _ _ _ _ _ Hop). by exists s'.
Qed.

Lemma take_many_repr l1 : ∀ s l2,
  deque_repr s (l1 ++ l2) →
  ∃ s', take_many NDEBUG (length l1) s = Ok l1.*2 s' ∧
        deque_repr s' l2 ∧
        mem s' = free_all (mem s) l1.*1 ∧
        freed s' = reverse l1.*1 ++ freed s.
Proof.
  induction l1 as [|[a v] l1 IH]; intros s l2 Hl.
  - exists s. by split_and!.
  - destruct (take_front_repr s a v (l1 ++ l2) Hl)
      as (s1 & Hop & Hl1 & Hmem1 & Hfr1).
    destruct (IH s1 l2 Hl1) as (s' & Hrest & Hl' & Hmem & Hfr).
    exists s'. cbn [length take_many].
    rewrite (bind_Ok _ _ _ _ _ Hop), (bind_Ok _ _ _ _ _ Hrest).
    split_and!; [done | done | |].
    + rewrite Hmem, Hmem1. reflexivity.
    + rewrite Hfr, Hfr1. cbn [fmap list_fmap fst].
      by rewrite reverse_cons, <- app_assoc.
Qed.

Lemma run_ops_repr os : ∀ s l,
  deque_repr s l → feasible NDEBUG os s →
  ∃ s' l', run_ops NDEBUG os s = Ok tt s' ∧
           deque_repr s' l' ∧
           apply_ops os l.*2 = Some l'.*2.
Proof.
  induction os as [|o os IH]; intros s l Hl Hfeas.
  - exists s, l. by split_and!.
  - destruct Hfeas as [Hpre Hnext]. destruct o as [r junk v|r junk v|].
    + destruct (DEQUE_PUSH_repr s l r junk v Hl Hpre)
        as (s1 & Hop & Hl1 & _).
      destruct (IH s1 _ Hl1 (Hnext s1 Hop)) as (s' & l' & Hrun & Hl' & Happ).
      exists s', l'. cbn [run_ops run_op apply_ops apply_op].
      by rewrite (bind_Ok _ _ _ _ _ Hop).
    + destruct (DEQUE_APPEND_repr s l r junk v Hl Hpre)
        as (s1 & Hop & Hl1 & _).
      destruct (IH s1 _ Hl1 (Hnext s1 Hop)) as (s' & l' & Hrun & Hl' & Happ).
      exists s', l'. cbn [run_ops run_op apply_ops apply_op].
      rewrite (bind_Ok _ _ _ _ _ Hop). rewrite fmap_app in Happ. done.
    + destruct l as [|[a v] l].
      { cbn [op_pre] in Hpre. exfalso. by apply Hpre, (repr_size_zero s []). }
      destruct (DEQUE_POP_repr NDEBUG s a v l Hl) as (s1 & Hop & Hl1 & _).
      destruct (IH s1 _ Hl1 (Hnext s1 Hop)) as (s' & l' & Hrun & Hl' & Happ).
      exists s', l'. cbn [run_ops run_op apply_ops apply_op].
      by rewrite (bind_Ok _ _ _ _ _ Hop).
Qed.

End Programs.

(** X14.  Any sequence of [DEQUE_PUSH], [DEQUE_APPEND] and [DEQUE_POP] whose
    allocations succeed and whose pops are guarded by a non-zero
    [DEQUE_SIZE] runs to the end on a well-formed deque, and leaves a
    well-formed deque holding what the same pushes (at the front), appends
    (at the back) and removals (from the front) leave of a plain list; in
    particular [size == 0], [first == NULL] and [last == NULL] agree at the
    end. *)
Theorem run_ops_refines_list {T : Type} (NDEBUG : bool)
    (os : list (op (T:=T))) (s : state (T:=T)) (l : list (Z * T)) :
  deque_repr s l → feasible NDEBUG os s →
  ∃ s' l', run_ops NDEBUG os s = Ok tt s' ∧
           deque_repr s' l' ∧
           apply_ops os l.*2 = Some l'.*2 ∧
           size (dq s') = Z.of_nat (length l') ∧
           size_first_last_agree (dq s').
Proof.
  intros Hl Hfeas.
  destruct (run_ops_repr NDEBUG os s l Hl Hfeas) as (s' & l' & Hrun & Hl' & Happ).
  exists s', l'. split_and!; [done..| |].
  - by destruct Hl' as (_ & _ & _ & _ & Hsz).
  - apply wf_size_first_last_agree. by exists l'.
Qed.

Lemma run_ops_refines_list_witness :
  deque_repr empty_state [] ∧
  feasible false
    [OpPush 8 (Node 0 0) 1; OpAppend 16 (Node 0 0) 2; OpPop] empty_state ∧
  ∃ s' l', run_ops false
             [OpPush 8 (Node 0 0) 1; OpAppend 16 (Node 0 0) 2; OpPop]
             empty_state = Ok tt s' ∧
           deque_repr s' l' ∧
           apply_ops [OpPush 8 (Node 0 0) 1; OpAppend 16 (Node 0 0) 2; OpPop]
             ([] : list (Z * Z)).*2 = Some l'.*2 ∧
           size (dq s') = Z.of_nat (length l') ∧
           size_first_last_agree (dq s').
Proof.
  assert (deque_repr empty_state []) as H by solve_repr.
  assert (feasible false
            [OpPush 8 (Node 0 0) 1; OpAppend 16 (Node 0 0) 2; OpPop]
            empty_state) as Hfeas.
  { split; [split; [solve_valid_ptr | reflexivity]|].
    intros s1 H1. vm_compute in H1. injection H1 as <-.
    split; [split; [solve_valid_ptr | reflexivity]|].
    intros s2 H2. vm_compute in H2. injection H2 as <-.
    split; [discriminate|]. intros s3 _. exact I. }
  split; [exact H|]. split; [exact Hfeas|].
  exact (run_ops_refines_list false _ empty_state [] H Hfeas).
Defined.

(** X15.  Taking the front element as many times as a well-formed deque has
    elements yields its elements front to back, and leaves the deque empty
    with every node of the chain freed, in that order.  Taking fewer
    yields that many leading elements and leaves the rest. *)
Theorem take_many_yields_prefix {T : Type} (NDEBUG : bool)
    (s : state (T:=T)) (l1 l2 : list (Z * T)) :
  deque_repr s (l1 ++ l2) →
  ∃ s', take_many NDEBUG (length l1) s = Ok l1.*2 s' ∧
        deque_repr s' l2 ∧
        freed s' = reverse l1.*1 ++ freed s ∧
        (∀ a, a ∈ l1.*1 → mem s' !! a = None) ∧
        (∀ a, a ∉ l1.*1 → mem s' !! a = mem s !! a) ∧
        (l2 = [] → dq s' = DEQUE_DEFAULT).
Proof.
  intros Hl.
  destruct (take_many_repr NDEBUG l1 s l2 Hl) as (s' & Hrun & Hl' & Hmem & Hfr).
  exists s'. split_and!; [done..| | |].
  - intros a Ha. rewrite Hmem, free_all_lookup. by rewrite decide_True.
  - intros a Ha. rewrite Hmem, free_all_lookup. by rewrite decide_False.
  - intros ->. by apply repr_nil.
Qed.

Lemma take_many_yields_prefix_witness :
  deque_repr two_nodes ([(8, 10); (16, 20)] ++ []) ∧
  ∃ s', take_many false (length [(8, 10); (16, 20)]) two_nodes
        = Ok [(8, 10); (16, 20)].*2 s' ∧
        deque_repr s' [] ∧
        freed s' = reverse [(8, 10); (16, 20)].*1 ++ freed two_nodes ∧
        (∀ a, a ∈ [(8, 10); (16, 20)].*1 → mem s' !! a = None) ∧
        (∀ a, a ∉ [(8, 10); (16, 20)].*1 →
              mem s' !! a = mem two_nodes !! a) ∧
        (([] : list (Z * Z)) = [] → dq s' = DEQUE_DEFAULT).
Proof.
  assert (deque_repr two_nodes ([(8, 10); (16, 20)] ++ [])) as H
    by solve_repr.
  split; [exact H|].
  exact (take_many_yields_prefix false two_nodes [(8, 10); (16, 20)] [] H).
Defined.
